(** * Black-Scholes option pricer ([backend/main.py])

    A shallow embedding of [_black_scholes] and of the [black_scholes]
    endpoint, and the properties of the pricer.

    Python's [float] is kept abstract in the embedding of the code (class
    [PyFloat]); the code is translated once and read in two number systems:

    - [Exact]: the real numbers, with the domain errors of [math.log],
      [math.sqrt] and of float division kept as exceptions;
    - [Binary64]: IEEE-754 double precision, where products and quotients
      round and may underflow to [0.0]. *)

From Stdlib Require Import Reals Lra Lia Bool String Ascii Factorial.
From Stdlib Require Import ZArith List Permutation.
From Stdlib Require PrimFloat.
From Stdlib Require FloatAxioms.

Set Warnings "-inexact-float".

(** ** Exceptions and results *)

Inductive exn : Type :=
| ValueError         (* math domain error *)
| ZeroDivisionError  (* float division by zero *)
| OverflowError.     (* math range error, result too large *)

Inductive result (A : Type) : Type :=
| Ok (a : A)
| Raise (e : exn).

Arguments Ok {A} a.
Arguments Raise {A} e.

Definition bind {A B : Type} (m : result A) (k : A -> result B) : result B :=
  match m with
  | Ok a => k a
  | Raise e => Raise e
  end.

Declare Scope py_scope.
Delimit Scope py_scope with py.
Notation "x <- m ;; k" := (bind m (fun x => k))
  (at level 61, m at next level, right associativity) : py_scope.

(** ** The float interface used by the pricer

    Addition, subtraction, multiplication, negation and comparison never
    raise in Python; [/], [**] and the functions of [math] and of
    [statistics.NormalDist] may. *)

Class PyFloat (F : Type) : Type := {
  lit_0 : F;                       (* 0 and 0.0 *)
  lit_0_5 : F;                     (* 0.5 *)
  lit_2 : F;                       (* 2 *)
  lit_100 : F;                     (* 100.0 *)
  lit_365 : F;                     (* 365.0 *)
  fle : F -> F -> bool;            (* x <= y *)
  fadd : F -> F -> F;              (* x + y *)
  fsub : F -> F -> F;              (* x - y *)
  fmul : F -> F -> F;              (* x * y *)
  fneg : F -> F;                   (* -x *)
  fdiv : F -> F -> result F;       (* x / y *)
  fsquare : F -> result F;         (* x ** 2 *)
  math_log : F -> result F;        (* math.log *)
  math_sqrt : F -> result F;       (* math.sqrt *)
  math_exp : F -> result F;        (* math.exp *)
  norm_cdf : F -> result F;        (* NormalDist().cdf *)
  norm_pdf : F -> result F         (* NormalDist().pdf *)
}.

Declare Scope pyfloat_scope.
Delimit Scope pyfloat_scope with pyf.
Infix "+" := fadd : pyfloat_scope.
Infix "-" := fsub : pyfloat_scope.
Infix "*" := fmul : pyfloat_scope.
Notation "- x" := (fneg x) : pyfloat_scope.
Infix "<=?" := fle : pyfloat_scope.

(** ** Data model *)

Record OptionRequest (F : Type) : Type := {
  req_S : F;
  req_K : F;
  req_T : F;
  req_r : F;
  req_sigma : F;
  req_type : string
}.

Record OptionResponse (F : Type) : Type := {
  price : F;
  delta : F;
  gamma : F;
  vega : F;
  theta : F;
  rho : F
}.

Arguments Build_OptionResponse {F}.
Arguments price {F}.
Arguments delta {F}.
Arguments gamma {F}.
Arguments vega {F}.
Arguments theta {F}.
Arguments rho {F}.
Arguments req_S {F}.
Arguments req_K {F}.
Arguments req_T {F}.
Arguments req_r {F}.
Arguments req_sigma {F}.
Arguments req_type {F}.
Arguments Build_OptionRequest {F}.

(** ** The pricer *)

Section Pricer.

Context {F : Type} `{PyFloat F}.

Local Open Scope py_scope.
Local Open Scope pyfloat_scope.

(** [{k: 0.0 for k in ["price","delta","gamma","vega","theta","rho"]}] *)
Definition all_zero : OptionResponse F :=
  {| price := lit_0; delta := lit_0; gamma := lit_0;
     vega := lit_0; theta := lit_0; rho := lit_0 |}.

(** [_black_scholes(S, K, T, r, sigma, is_call)]: sub-expressions are
    evaluated in Python's order, left to right, so that the first
    exception raised is the one the code raises. *)
Definition _black_scholes (S K T r sigma : F) (is_call : bool)
  : result (OptionResponse F) :=
  if (T <=? lit_0) || (sigma <=? lit_0) || (S <=? lit_0) || (K <=? lit_0)
  then Ok all_zero
  else
    (* d1 = (log(S / K) + (r + 0.5 * sigma ** 2) * T) / (sigma * sqrt(T)) *)
    q <- fdiv S K ;;
    l <- math_log q ;;
    s2 <- fsquare sigma ;;
    rt <- math_sqrt T ;;
    d1 <- fdiv (l + (r + lit_0_5 * s2) * T) (sigma * rt) ;;
    (* d2 = d1 - sigma * sqrt(T) *)
    rt <- math_sqrt T ;;
    let d2 := d1 - sigma * rt in
    pdt <-
      (if is_call then
         (* price = S * norm.cdf(d1) - K * exp(-r * T) * norm.cdf(d2) *)
         n1 <- norm_cdf d1 ;;
         e <- math_exp (- r * T) ;;
         n2 <- norm_cdf d2 ;;
         let price := S * n1 - K * e * n2 in
         (* delta = norm.cdf(d1) *)
         delta <- norm_cdf d1 ;;
         (* rho = K * T * exp(-r * T) * norm.cdf(d2) / 100.0 *)
         e <- math_exp (- r * T) ;;
         n2 <- norm_cdf d2 ;;
         rho <- fdiv (K * T * e * n2) lit_100 ;;
         (* theta = (-(S * norm.pdf(d1) * sigma) / (2 * sqrt(T))
                     - r * K * exp(-r*T) * norm.cdf(d2)) / 365.0 *)
         p1 <- norm_pdf d1 ;;
         rt <- math_sqrt T ;;
         a <- fdiv (- (S * p1 * sigma)) (lit_2 * rt) ;;
         e <- math_exp (- r * T) ;;
         n2 <- norm_cdf d2 ;;
         theta <- fdiv (a - r * K * e * n2) lit_365 ;;
         Ok (price, delta, rho, theta)
       else
         (* price = K * exp(-r * T) * norm.cdf(-d2) - S * norm.cdf(-d1) *)
         e <- math_exp (- r * T) ;;
         n2 <- norm_cdf (- d2) ;;
         n1 <- norm_cdf (- d1) ;;
         let price := K * e * n2 - S * n1 in
         (* delta = -norm.cdf(-d1) *)
         n1 <- norm_cdf (- d1) ;;
         let delta := - n1 in
         (* rho = -K * T * exp(-r * T) * norm.cdf(-d2) / 100.0 *)
         e <- math_exp (- r * T) ;;
         n2 <- norm_cdf (- d2) ;;
         rho <- fdiv (- K * T * e * n2) lit_100 ;;
         (* theta = (-(S * norm.pdf(d1) * sigma) / (2 * sqrt(T))
                     + r * K * exp(-r*T) * norm.cdf(-d2)) / 365.0 *)
         p1 <- norm_pdf d1 ;;
         rt <- math_sqrt T ;;
         a <- fdiv (- (S * p1 * sigma)) (lit_2 * rt) ;;
         e <- math_exp (- r * T) ;;
         n2 <- norm_cdf (- d2) ;;
         theta <- fdiv (a + r * K * e * n2) lit_365 ;;
         Ok (price, delta, rho, theta)) ;;
    let '(price, delta, rho, theta) := pdt in
    (* gamma = norm.pdf(d1) / (S * sigma * sqrt(T)) *)
    p1 <- norm_pdf d1 ;;
    rt <- math_sqrt T ;;
    gamma <- fdiv p1 (S * sigma * rt) ;;
    (* vega = S * norm.pdf(d1) * sqrt(T) / 100.0 *)
    p1 <- norm_pdf d1 ;;
    rt <- math_sqrt T ;;
    vega <- fdiv (S * p1 * rt) lit_100 ;;
    Ok {| price := price; delta := delta; gamma := gamma;
          vega := vega; theta := theta; rho := rho |}.

(** [str.lower()] on one character.  The request's [type] is kept as a
    byte string: only the ASCII letters [A]-[Z] change, which decides
    [s.lower() == 'call'] exactly as Python does, since no character
    outside ASCII lowercases to [c], [a] or [l]. *)
Definition lower_ascii (c : ascii) : ascii :=
  if (("A" <=? c)%char && (c <=? "Z")%char)%bool
  then ascii_of_nat (nat_of_ascii c + 32)
  else c.

Fixpoint lower (s : string) : string :=
  match s with
  | EmptyString => EmptyString
  | String c s' => String (lower_ascii c) (lower s')
  end.

(** [black_scholes(req)]: the endpoint.  The response is built from the
    six entries of the dictionary [res], unchanged. *)
Definition black_scholes (req : OptionRequest F) : result (OptionResponse F) :=
  let is_call := String.eqb (lower (req_type req)) "call" in
  res <- _black_scholes (req_S req) (req_K req) (req_T req) (req_r req)
                        (req_sigma req) is_call ;;
  Ok res.

End Pricer.

(** The sixteen spellings of the word call: the letters c, a, l, l, each
    in either case.  Written from the words of the specification, to
    state the dispatch of the endpoint without the lowercasing of the
    code. *)
Definition spells_call (s : string) : Prop :=
  exists c1 c2 c3 c4 : ascii,
    s = String c1 (String c2 (String c3 (String c4 EmptyString))) /\
    (c1 = "c" \/ c1 = "C")%char /\ (c2 = "a" \/ c2 = "A")%char /\
    (c3 = "l" \/ c3 = "L")%char /\ (c4 = "l" \/ c4 = "L")%char.

(** ** Exact arithmetic: Python floats read as real numbers *)

Module Exact.

Local Open Scope R_scope.

Definition Rleb (x y : R) : bool := if Rle_dec x y then true else false.

(** Integral of a continuous function between any two bounds. *)
Definition cont_integrable (f : R -> R) (hc : continuity f) (a b : R)
  : Riemann_integrable f a b :=
  match Rle_dec a b with
  | left h => continuity_implies_RiemannInt h (fun x _ => hc x)
  | right h =>
      RiemannInt_P1
        (continuity_implies_RiemannInt (Rlt_le _ _ (Rnot_le_lt _ _ h))
           (fun x _ => hc x))
  end.

Definition integral (f : R -> R) (hc : continuity f) (a b : R) : R :=
  RiemannInt (cont_integrable f hc a b).

(** The integrand of the error function. *)
Definition gauss (t : R) : R := exp (- (t * t)).

Definition gauss_continuity : continuity gauss.
Proof. apply derivable_continuous. unfold gauss. reg. Qed.

(** [gauss_int x] is the integral of [gauss] from [0] to [x]. *)
Definition gauss_int (x : R) : R := integral gauss gauss_continuity 0 x.

(** [math.erf]: [2/sqrt(pi)] times the integral of [exp(-t*t)] from [0]
    to [x]. *)
Definition erf (x : R) : R := 2 / sqrt PI * gauss_int x.

(** Modelled from the spec: [statistics.NormalDist] belongs to Python's
    standard library, not to the repository.  The spec asks for the
    standard normal distribution function and for the density
    [exp(-x^2/2)/sqrt(2 pi)]; [cdf] and [pdf] below are the library's two
    formulas, and [cdf_norm_Phi] and [pdf_norm] prove that, for
    [NormalDist()], they are these two functions.  (Later versions of the
    library write [cdf] as [0.5 * erfc((mu - x) / (sigma * sqrt(2)))],
    the same real number.) *)
Record NormalDist : Type := { _mu : R; _sigma : R }.

(** [0.5 * (1.0 + erf((x - self._mu) / (self._sigma * sqrt(2.0))))] *)
Definition cdf (d : NormalDist) (x : R) : R :=
  0.5 * (1 + erf ((x - _mu d) / (_sigma d * sqrt 2))).

(** [exp((x - self._mu)**2.0 / (-2.0*variance)) / sqrt(tau*variance)]
    with [variance = self._sigma ** 2.0] and [tau = 2*pi]. *)
Definition pdf (d : NormalDist) (x : R) : R :=
  exp ((x - _mu d) ^ 2 / (- 2 * _sigma d ^ 2)) / sqrt (2 * PI * _sigma d ^ 2).

(** [norm = NormalDist()] *)
Definition norm : NormalDist := {| _mu := 0; _sigma := 1 |}.

#[export] Instance RealFloat : PyFloat R := {|
  lit_0 := 0;
  lit_0_5 := 0.5;
  lit_2 := 2;
  lit_100 := 100;
  lit_365 := 365;
  fle := Rleb;
  fadd := Rplus;
  fsub := Rminus;
  fmul := Rmult;
  fneg := Ropp;
  fdiv := fun x y =>
    if Req_dec_T y 0 then Raise ZeroDivisionError else Ok (x / y);
  fsquare := fun x => Ok (x ^ 2);
  math_log := fun x => if Rlt_dec 0 x then Ok (ln x) else Raise ValueError;
  math_sqrt := fun x => if Rlt_dec x 0 then Raise ValueError else Ok (sqrt x);
  math_exp := fun x => Ok (exp x);
  norm_cdf := fun x => Ok (cdf norm x);
  norm_pdf := fun x => Ok (pdf norm x)
|}.

(** *** The formulas of the specification

    [phi] is the standard normal density, [Phi] the standard normal
    cumulative distribution function (the spec's [N]): the integral of
    the density, one half at the origin. *)

Definition phi (x : R) : R := exp (- (x ^ 2) / 2) / sqrt (2 * PI).

Definition phi_continuity : continuity phi.
Proof. apply derivable_continuous. unfold phi. reg. Qed.

Definition Phi (x : R) : R := 1 / 2 + integral phi phi_continuity 0 x.

Definition bsm_d1 (S K T r sigma : R) : R :=
  (ln (S / K) + (r + 0.5 * sigma ^ 2) * T) / (sigma * sqrt T).

Definition bsm_d2 (S K T r sigma : R) : R :=
  bsm_d1 S K T r sigma - sigma * sqrt T.

Definition bsm_call (S K T r sigma : R) : OptionResponse R :=
  let d1 := bsm_d1 S K T r sigma in
  let d2 := bsm_d2 S K T r sigma in
  {| price := S * Phi d1 - K * exp (- (r * T)) * Phi d2;
     delta := Phi d1;
     gamma := phi d1 / (S * sigma * sqrt T);
     vega := S * phi d1 * sqrt T / 100;
     theta := (- (S * phi d1 * sigma) / (2 * sqrt T)
               - r * K * exp (- (r * T)) * Phi d2) / 365;
     rho := K * T * exp (- (r * T)) * Phi d2 / 100 |}.

Definition bsm_put (S K T r sigma : R) : OptionResponse R :=
  let d1 := bsm_d1 S K T r sigma in
  let d2 := bsm_d2 S K T r sigma in
  {| price := K * exp (- (r * T)) * Phi (- d2) - S * Phi (- d1);
     delta := - Phi (- d1);
     gamma := phi d1 / (S * sigma * sqrt T);
     vega := S * phi d1 * sqrt T / 100;
     theta := (- (S * phi d1 * sigma) / (2 * sqrt T)
               + r * K * exp (- (r * T)) * Phi (- d2)) / 365;
     rho := - (K * T * exp (- (r * T)) * Phi (- d2)) / 100 |}.

(** The price alone, as a function of the volatility. *)
Definition call_price (S K T r sigma : R) : R :=
  price (bsm_call S K T r sigma).

Definition put_price (S K T r sigma : R) : R :=
  price (bsm_put S K T r sigma).

(** *** Auxiliary functions of the proofs *)

(** [cospow_int k t]: the integral of [cos ^ k] from [0] to [t], by the
    reduction formula; [wallis k] is its value at [PI / 2]. *)
Fixpoint cospow_int (k : nat) (t : R) : R :=
  match k with
  | O => t
  | S O => sin t
  | S (S k' as k1) =>
      (cos t ^ k1 * sin t + INR k1 * cospow_int k' t) / INR (S k1)
  end.

Definition wallis (k : nat) : R := cospow_int k (PI / 2).

(** The integral of [(1 + x^2/n) ^ -n] from [0] to [x], with [n = j + 1],
    after the substitution [x = sqrt n * tan t]. *)
Definition tan_subst (j : nat) (x : R) : R :=
  sqrt (INR (S j)) * cospow_int (2 * j) (atan (x / sqrt (INR (S j)))).

(** The Gauss integral up to [sqrt n * sin t] against the integral of
    [(1 - x^2/n) ^ n], with [n = j + 1]. *)
Definition sin_subst (j : nat) (t : R) : R :=
  gauss_int (sqrt (INR (S j)) * sin t)
  - sqrt (INR (S j)) * cospow_int (S (2 * S j)) t.

(** Partial sums of the series of [exp (- u)]. *)
Fixpoint exp_taylor (k : nat) (u : R) : R :=
  match k with
  | O => 1
  | S k' => exp_taylor k' u + (- u) ^ k / INR (fact k)
  end.

(** Antiderivatives of the partial sums of order 3 and 4 of
    [exp (- t^2 / 2)]. *)
Definition gauss_poly_lo (x : R) : R :=
  x - x ^ 3 / 6 + x ^ 5 / 40 - x ^ 7 / 336.

Definition gauss_poly_hi (x : R) : R :=
  gauss_poly_lo x + x ^ 9 / 3456.

End Exact.

(** ** Binary64 arithmetic: Python floats as IEEE-754 doubles *)

Module Binary64.

Import PrimFloat.

(** The functions Python takes from the C library and from
    [statistics]: nothing is assumed about them, each may return any
    float or raise. *)
Record Library : Type := {
  c_log : float -> result float;       (* log(x) for finite x > 0 *)
  c_exp : float -> result float;       (* math.exp *)
  c_pow2 : float -> result float;      (* x ** 2 *)
  c_cdf : float -> result float;       (* NormalDist().cdf *)
  c_pdf : float -> result float        (* NormalDist().pdf *)
}.

(** [x / y] on floats: a zero divisor, of either sign, raises. *)
Definition float_div (x y : float) : result float :=
  if (y =? 0)%float then Raise ZeroDivisionError else Ok (x / y)%float.

(** [math.sqrt]: negative arguments raise, NaN is returned as it is. *)
Definition float_sqrt (x : float) : result float :=
  if (x <? 0)%float then Raise ValueError else Ok (sqrt x).

(** [math.log]: NaN and [+inf] are returned as they are, zero and
    negative arguments raise, the C library decides the rest. *)
Definition float_log (m : Library) (x : float) : result float :=
  if is_nan x then Ok x
  else if (x <=? 0)%float then Raise ValueError
  else if is_infinity x then Ok x
  else c_log m x.

Definition float_ops (m : Library) : PyFloat float := {|
  lit_0 := 0%float;
  lit_0_5 := 0.5%float;
  lit_2 := 2%float;
  lit_100 := 100%float;
  lit_365 := 365%float;
  fle := PrimFloat.leb;
  fadd := PrimFloat.add;
  fsub := PrimFloat.sub;
  fmul := PrimFloat.mul;
  fneg := PrimFloat.opp;
  fdiv := float_div;
  fsquare := c_pow2 m;
  math_log := float_log m;
  math_sqrt := float_sqrt;
  math_exp := c_exp m;
  norm_cdf := c_cdf m;
  norm_pdf := c_pdf m
|}.

(** [_black_scholes] on doubles. *)
Definition price_binary64 (m : Library) (S K T r sigma : float) (is_call : bool)
  : result (OptionResponse float) :=
  @_black_scholes float (float_ops m) S K T r sigma is_call.

End Binary64.

(** ** One output of the pricer, as a function of its inputs *)

(** The value of one output field, read off the result of the pricer in
    exact arithmetic. *)
Definition output (f : OptionResponse R -> R) (S K T r sigma : R)
    (is_call : bool) : R :=
  match @_black_scholes R Exact.RealFloat S K T r sigma is_call with
  | Ok res => f res
  | Raise _ => 0%R
  end.

(** ** The library at the scenario of the specification *)

Module Observed.

Import PrimFloat Binary64.
Local Open Scope float_scope.

(** What CPython returns for [x ** 2], [math.log], [math.exp],
    [norm.cdf] and [norm.pdf] at the arguments the pricer meets for
    [S = K = 100], [T = 1], [r = 0.05], the call flag, and [sigma = 0.2]
    or the next double, [0.20000000000000004].  The numbers are the
    shortest decimals of the doubles, as [repr] prints them. *)
Definition at_scenario (m : Library) : Prop :=
  c_pow2 m 0.2 = Ok 0.04000000000000001 /\
  c_pow2 m 0.20000000000000004 = Ok 0.040000000000000015 /\
  c_log m 1 = Ok 0 /\
  c_exp m (-0.05) = Ok 0.951229424500714 /\
  c_cdf m 0.35000000000000003 = Ok 0.6368306511756191 /\
  c_cdf m 0.15000000000000002 = Ok 0.5596176923702425 /\
  c_cdf m 0.35 = Ok 0.636830651175619 /\
  c_cdf m 0.14999999999999994 = Ok 0.5596176923702425 /\
  c_pdf m 0.35000000000000003 = Ok 0.3752403469169379 /\
  c_pdf m 0.35 = Ok 0.3752403469169379.

(** A function given by a table; its argument elsewhere. *)
Fixpoint lookup (table : list (float * float)) (x : float) : result float :=
  match table with
  | nil => Ok x
  | (a, b) :: rest => if a =? x then Ok b else lookup rest x
  end.

(** A library that returns the values above. *)
Definition table_library : Library := {|
  c_log := lookup ((1, 0) :: nil);
  c_exp := lookup ((-0.05, 0.951229424500714) :: nil);
  c_pow2 := lookup ((0.2, 0.04000000000000001)
                    :: (0.20000000000000004, 0.040000000000000015) :: nil);
  c_cdf := lookup ((0.35000000000000003, 0.6368306511756191)
                   :: (0.15000000000000002, 0.5596176923702425)
                   :: (0.35, 0.636830651175619)
                   :: (0.14999999999999994, 0.5596176923702425) :: nil);
  c_pdf := lookup ((0.35000000000000003, 0.3752403469169379)
                   :: (0.35, 0.3752403469169379) :: nil)
|}.

End Observed.

(** ** The other endpoints of [backend/main.py] *)

(** *** More of Python's numbers

    What [predict], [valuation] and the sample data use besides the
    operations of [PyFloat]. *)

Class PyNum (F : Type) : Type := {
  of_int : Z -> F;               (* an int where a float is computed *)
  dec : Z -> nat -> F;           (* the float literal [m] / 10^[k] *)
  flt : F -> F -> bool;          (* x < y *)
  ftruth : F -> bool;            (* bool(x): x != 0.0 *)
  format_1f : F -> string        (* format(x, ".1f") *)
}.

(** Errors of the endpoints, and their results. *)
Inductive error : Type :=
| KeyError (key : string)
| HTTPException (status_code : Z) (detail : string)
| Arithmetic (e : exn)
| AttributeError (attr : string)
| DatabaseError (msg : string).

Inductive outcome (A : Type) : Type :=
| Returns (a : A)
| Raises (e : error).

Arguments Returns {A} a.
Arguments Raises {A} e.

Definition and_then {A B : Type} (m : outcome A) (k : A -> outcome B)
  : outcome B :=
  match m with
  | Returns a => k a
  | Raises e => Raises e
  end.

Definition lift {A : Type} (m : result A) : outcome A :=
  match m with
  | Ok a => Returns a
  | Raise e => Raises (Arithmetic e)
  end.

Declare Scope endpoint_scope.
Delimit Scope endpoint_scope with endpoint.
Notation "x <~ m ;; k" := (and_then m (fun x => k))
  (at level 61, m at next level, right associativity) : endpoint_scope.

(** Values of a parsed JSON body, and of the dictionaries of the data. *)
#[warnings="-register-all"] Inductive json (F : Type) : Type :=
| JNull
| JBool (b : bool)
| JInt (z : Z)
| JFloat (x : F)
| JStr (s : string)
| JList (l : list (json F))
| JDict (d : list (string * json F)).

Arguments JNull {F}.
Arguments JBool {F} b.
Arguments JInt {F} z.
Arguments JFloat {F} x.
Arguments JStr {F} s.
Arguments JList {F} l.
Arguments JDict {F} d.

Record IPO (F : Type) : Type := {
  ipo_symbol : string;
  ipo_name : string;
  ipo_sector : string;
  ipo_listDate : string;
  ipo_issuePrice : F;
  ipo_currentPrice : F
}.

Arguments ipo_symbol {F}.
Arguments ipo_name {F}.
Arguments ipo_sector {F}.
Arguments ipo_listDate {F}.
Arguments ipo_issuePrice {F}.
Arguments ipo_currentPrice {F}.
Arguments Build_IPO {F}.

(** [IPODetail(IPO)]: the six fields of [IPO] and six optional ones. *)
Record IPODetail (F : Type) : Type := {
  symbol : string;
  name : string;
  sector : string;
  listDate : string;
  issuePrice : F;
  currentPrice : F;
  description : option string;
  registrar : option string;
  exchanges : option (list string);
  lotSize : option Z;
  subscription : option (list (string * json F));
  timeline : option (list (string * json F))
}.

Arguments symbol {F}.
Arguments name {F}.
Arguments sector {F}.
Arguments listDate {F}.
Arguments issuePrice {F}.
Arguments currentPrice {F}.
Arguments description {F}.
Arguments registrar {F}.
Arguments exchanges {F}.
Arguments lotSize {F}.
Arguments subscription {F}.
Arguments timeline {F}.
Arguments Build_IPODetail {F}.

Record PredictRequest (F : Type) : Type := {
  p_npm : F;
  p_subscription : F;
  p_sentiment : F
}.

Arguments p_npm {F}.
Arguments p_subscription {F}.
Arguments p_sentiment {F}.
Arguments Build_PredictRequest {F}.

Record PredictResponse (F : Type) : Type := {
  probability : F;
  drivers : list string
}.

Arguments probability {F}.
Arguments drivers {F}.
Arguments Build_PredictResponse {F}.

Record ValuationRequest (F : Type) : Type := {
  multiples : list (string * json F);   (* a dict, in insertion order *)
  growth : F
}.

Arguments multiples {F}.
Arguments growth {F}.
Arguments Build_ValuationRequest {F}.

Record ValuationResponse (F : Type) : Type := {
  targetPrice : option F;
  premiumValidated : bool;
  medianMultiples : list (string * F);
  latencyMs : Z
}.

Arguments targetPrice {F}.
Arguments premiumValidated {F}.
Arguments medianMultiples {F}.
Arguments latencyMs {F}.
Arguments Build_ValuationResponse {F}.

Section Endpoints.

Context {F : Type} {ops : PyFloat F} {num : PyNum F}.

Import ListNotations.
Local Open Scope list_scope.
Local Open Scope string_scope.
Local Open Scope Z_scope.
Local Open Scope pyfloat_scope.

(** [max(a, b)] and [min(a, b)]: the first argument is kept unless the
    second is strictly greater, or strictly smaller. *)
Definition py_max (a b : F) : F := if flt a b then b else a.
Definition py_min (a b : F) : F := if flt b a then b else a.

(** Truth value of a JSON value, as [if v] tests it. *)
Definition truthy (v : json F) : bool :=
  match v with
  | JNull => false
  | JBool b => b
  | JInt z => negb (z =? 0)
  | JFloat x => ftruth x
  | JStr s => negb (String.eqb s EmptyString)
  | JList l => match l with [] => false | _ => true end
  | JDict d => match d with [] => false | _ => true end
  end.

(** [predict(req)] *)
Definition predict (req : PredictRequest F) : result (PredictResponse F) :=
  (* p = 0.35 * (req.npm / 20) + 0.4 * (req.subscription / 2)
         + 0.25 * req.sentiment *)
  (a <- fdiv (p_npm req) (of_int 20) ;;
   b <- fdiv (p_subscription req) (of_int 2) ;;
   let p := dec 35 2 * a + dec 4 1 * b + dec 25 2 * p_sentiment req in
   (* p = max(0.0, min(1.0, p)) *)
   let p := py_max (dec 0 1) (py_min (dec 10 1) p) in
   (* the three formatted contributions *)
   a' <- fdiv (p_npm req) (of_int 20) ;;
   b' <- fdiv (p_subscription req) (of_int 2) ;;
   Ok {| probability := p;
         drivers :=
           [ "NPM% contribution: " ++ format_1f (a' * of_int 35) ++ " pts";
             "Subscription intensity: "
               ++ format_1f (b' * of_int 40) ++ " pts";
             "Social sentiment: "
               ++ format_1f (p_sentiment req * of_int 25) ++ " pts" ] |})%py.

(** [medians] and [priceByMultiple] of [valuation]. *)
Definition medians : list (string * F) :=
  [("evEbitda", dec 124 1); ("pe", dec 187 1); ("pb", dec 31 1)].

Definition priceByMultiple : list (string * Z) :=
  [("evEbitda", 95); ("pe", 102); ("pb", 88)].

(** The keys of [priceByMultiple]. *)
Definition known (k : string) : Prop := In k (map fst priceByMultiple).

(** [d[k]] on a dictionary of ints: [None] stands for [KeyError]. *)
Fixpoint getitem (d : list (string * Z)) (k : string) : option Z :=
  match d with
  | [] => None
  | (k', v) :: d' => if String.eqb k' k then Some v else getitem d' k
  end.

(** [sum(priceByMultiple[k] for k in active)], from the accumulator
    [acc]: the first key missing from the table raises. *)
Fixpoint sum_prices (acc : Z) (active : list string) : outcome Z :=
  match active with
  | [] => Returns acc
  | k :: rest =>
      match getitem priceByMultiple k with
      | None => Raises (KeyError k)
      | Some v => sum_prices (acc + v)%Z rest
      end
  end.

(** [[k for k, v in req.multiples.items() if v]] *)
Definition active_keys (m : list (string * json F)) : list string :=
  map fst (filter (fun kv => truthy (snd kv)) m).

(** [valuation(req)].  The ints [0] and [90] meet floats in the code;
    they are converted where they are used. *)
Definition valuation (req : ValuationRequest F)
  : outcome (ValuationResponse F) :=
  (let active := active_keys (multiples req) in
   (* targetPrice = sum(...) / len(active) if active else None *)
   targetPrice <~
     (match active with
      | [] => Returns None
      | _ :: _ =>
          s <~ sum_prices 0 active ;;
          q <~ lift (fdiv (of_int s) (of_int (Z.of_nat (length active)))) ;;
          Returns (Some q)
      end) ;;
   (* impliedPremium = max(0.0, ((targetPrice or 0) - 90) / 90) * 100 *)
   let tp :=
     match targetPrice with
     | Some t => if ftruth t then t else of_int 0
     | None => of_int 0
     end in
   q <~ lift (fdiv (tp - of_int 90) (of_int 90)) ;;
   let impliedPremium := py_max (dec 0 1) q * of_int 100 in
   (* premiumValidated = impliedPremium <= req.growth * 1.2 *)
   let premiumValidated := impliedPremium <=? growth req * dec 12 1 in
   Returns {| targetPrice := targetPrice;
              premiumValidated := premiumValidated;
              medianMultiples := medians;
              latencyMs := 5 |})%endpoint.

(** The sample data [IPOS]. *)
Definition IPOS : list (IPODetail F) :=
  [ {| symbol := "IDEAFO"; name := "IdeaForge";
       sector := "Aerospace & Defence"; listDate := "2023-06-29";
       issuePrice := of_int 672; currentPrice := of_int 1360;
       description :=
         Some "Drone manufacturer serving defence and enterprise clients.";
       registrar := Some "Link Intime"; exchanges := Some ["NSE"; "BSE"];
       lotSize := Some 22;
       subscription :=
         Some [("QIB", JFloat (dec 806 1)); ("NII", JFloat (dec 626 1));
               ("RII", JFloat (dec 852 1))];
       timeline :=
         Some [("bidding", JList [JStr "2023-06-26"; JStr "2023-06-28"]);
               ("listing", JStr "2023-06-29")] |};
    {| symbol := "TATATECH"; name := "Tata Technologies";
       sector := "IT Services"; listDate := "2023-11-30";
       issuePrice := of_int 500; currentPrice := of_int 1210;
       description :=
         Some "Engineering and product development digital services company.";
       registrar := Some "Link Intime"; exchanges := Some ["NSE"; "BSE"];
       lotSize := Some 30;
       subscription :=
         Some [("QIB", JFloat (dec 2034 1)); ("NII", JFloat (dec 621 1));
               ("RII", JFloat (dec 165 1))];
       timeline :=
         Some [("bidding", JList [JStr "2023-11-22"; JStr "2023-11-24"]);
               ("listing", JStr "2023-11-30")] |};
    {| symbol := "EMS"; name := "EMS Ltd";
       sector := "Utilities"; listDate := "2023-09-21";
       issuePrice := of_int 211; currentPrice := of_int 497;
       description :=
         Some "Water and waste water treatment solutions provider.";
       registrar := Some "KFintech"; exchanges := Some ["NSE"; "BSE"];
       lotSize := Some 70;
       subscription :=
         Some [("QIB", JFloat (dec 1490 1)); ("NII", JFloat (dec 810 1));
               ("RII", JFloat (dec 305 1))];
       timeline :=
         Some [("bidding", JList [JStr "2023-09-08"; JStr "2023-09-12"]);
               ("listing", JStr "2023-09-21")] |} ].

(** An [IPO] built from the entries of [i.dict()]: the six fields of
    [IPO] are kept, the others dropped. *)
Definition to_IPO (i : IPODetail F) : IPO F :=
  {| ipo_symbol := symbol i; ipo_name := name i; ipo_sector := sector i;
     ipo_listDate := listDate i; ipo_issuePrice := issuePrice i;
     ipo_currentPrice := currentPrice i |}.

(** [list_ipos()] *)
Definition list_ipos : list (IPO F) := map to_IPO IPOS.

(** The loop of [ipo_detail] over a list of entries: the first entry
    whose lowercased symbol is the lowercased argument. *)
Fixpoint first_match (ipos : list (IPODetail F)) (sym : string)
  : outcome (IPODetail F) :=
  match ipos with
  | [] => Raises (HTTPException 404 "IPO not found")
  | i :: rest =>
      if String.eqb (lower (symbol i)) (lower sym) then Returns i
      else first_match rest sym
  end.

(** [ipo_detail(symbol)] *)
Definition ipo_detail (sym : string) : outcome (IPODetail F) :=
  first_match IPOS sym.

End Endpoints.

(** *** The health check [test_database]

    What the function reads from outside: the outcome of importing the
    [database] module, the database object it holds, and two variables of
    the process environment.  A string holds the UTF-8 bytes of Python's
    string, so the slice [str(e)[:50]], which counts characters, is
    [utf8_prefix 50]. *)

(** A byte [10xxxxxx] continues the character begun before it. *)
Definition is_continuation (c : ascii) : bool :=
  match c with
  | Ascii _ _ _ _ _ _ b6 b7 => b7 && negb b6
  end.

(** The first [n] characters of a UTF-8 string: [s[:n]]. *)
Fixpoint utf8_prefix (n : nat) (s : string) : string :=
  match s with
  | EmptyString => EmptyString
  | String c s' =>
      if is_continuation c then String c (utf8_prefix n s')
      else
        match n with
        | O => EmptyString
        | S n' => String c (utf8_prefix n' s')
        end
  end.

Record Database : Type := {
  db_name : option string;
      (* the attribute [name], when [hasattr(db, 'name')] *)
  db_list_collection_names : string + list string
      (* [inl msg]: the call raises an exception [e] with [str(e) = msg] *)
}.

Inductive import_outcome : Type :=
| ImportError                          (* the module is not there *)
| ImportRaises (msg : string)          (* another exception, [str(e) = msg] *)
| Imported (db : option Database).     (* [db] may be [None] *)

Record environment : Type := {
  import_database : import_outcome;
  DATABASE_URL : option string;
  DATABASE_NAME : option string
}.

Record HealthResponse : Type := {
  backend : string;
  database : string;
  database_url : option string;
  database_name : option string;
  connection_status : string;
  collections : list string
}.

Section Health.

Import ListNotations.
Local Open Scope list_scope.
Local Open Scope string_scope.

(** [response[key] = value], one definition per key that is assigned. *)
Definition set_database (r : HealthResponse) (v : string) : HealthResponse :=
  {| backend := backend r; database := v; database_url := database_url r;
     database_name := database_name r;
     connection_status := connection_status r;
     collections := collections r |}.

Definition set_database_url (r : HealthResponse) (v : option string)
  : HealthResponse :=
  {| backend := backend r; database := database r; database_url := v;
     database_name := database_name r;
     connection_status := connection_status r;
     collections := collections r |}.

Definition set_database_name (r : HealthResponse) (v : option string)
  : HealthResponse :=
  {| backend := backend r; database := database r;
     database_url := database_url r; database_name := v;
     connection_status := connection_status r;
     collections := collections r |}.

Definition set_connection_status (r : HealthResponse) (v : string)
  : HealthResponse :=
  {| backend := backend r; database := database r;
     database_url := database_url r; database_name := database_name r;
     connection_status := v; collections := collections r |}.

Definition set_collections (r : HealthResponse) (v : list string)
  : HealthResponse :=
  {| backend := backend r; database := database r;
     database_url := database_url r; database_name := database_name r;
     connection_status := connection_status r; collections := v |}.

(** Truth value of [os.getenv(name)]: set, and not the empty string. *)
Definition getenv_truthy (v : option string) : bool :=
  match v with
  | Some s => negb (String.eqb s EmptyString)
  | None => false
  end.

(** [test_database()] *)
Definition test_database (env : environment) : HealthResponse :=
  let response :=
    {| backend := "✅ Running"; database := "❌ Not Available";
       database_url := None; database_name := None;
       connection_status := "Not Connected"; collections := [] |} in
  let response :=
    match import_database env with
    | Imported (Some db) =>
        let response := set_database response "✅ Available" in
        let response := set_database_url response (Some "✅ Configured") in
        let response :=
          set_database_name response
            (Some (match db_name db with
                   | Some n => n
                   | None => "✅ Connected"
                   end)) in
        let response := set_connection_status response "Connected" in
        match db_list_collection_names db with
        | inr names =>
            let response := set_collections response (firstn 10 names) in
            set_database response "✅ Connected & Working"
        | inl msg =>
            set_database response
              ("⚠️  Connected but Error: " ++ utf8_prefix 50 msg)
        end
    | Imported None =>
        set_database response "⚠️  Available but not initialized"
    | ImportError =>
        set_database response
          "❌ Database module not found (run enable-database first)"
    | ImportRaises msg =>
        set_database response ("❌ Error: " ++ utf8_prefix 50 msg)
    end in
  let response :=
    set_database_url response
      (Some (if getenv_truthy (DATABASE_URL env) then "✅ Set"
             else "❌ Not Set")) in
  let response :=
    set_database_name response
      (Some (if getenv_truthy (DATABASE_NAME env) then "✅ Set"
             else "❌ Not Set")) in
  response.

End Health.

(** *** The two number systems, for the other endpoints *)

Module ExactNum.

Local Open Scope R_scope.

Definition Rltb (x y : R) : bool := if Rlt_dec x y then true else false.

(** [fmt] stands for Python's [format(x, ".1f")]. *)
Definition RealNum (fmt : R -> string) : PyNum R := {|
  of_int := IZR;
  dec := fun m k => IZR m / 10 ^ k;
  flt := Rltb;
  ftruth := fun x => if Req_dec_T x 0 then false else true;
  format_1f := fmt
|}.

End ExactNum.

Module Binary64Num.

Import PrimFloat.

(** A positive int as a double; exact below [2^53], the range of the
    ints of these endpoints. *)
Fixpoint float_of_pos (p : positive) : float :=
  match p with
  | xH => 1%float
  | xO q => (2 * float_of_pos q)%float
  | xI q => (2 * float_of_pos q + 1)%float
  end.

Definition float_of_Z (z : Z) : float :=
  match z with
  | Z0 => 0%float
  | Zpos p => float_of_pos p
  | Zneg p => (- float_of_pos p)%float
  end.

(** The literal [m] / 10^[k]: both are exact doubles for the literals of
    the code, and the quotient is rounded once, as the literal is. *)
Definition float_dec (m : Z) (k : nat) : float :=
  (float_of_Z m / float_of_Z (10 ^ Z.of_nat k))%float.

Definition float_num (fmt : float -> string) : PyNum float := {|
  of_int := float_of_Z;
  dec := float_dec;
  flt := PrimFloat.ltb;
  ftruth := fun x => negb (x =? 0)%float;
  format_1f := fmt
|}.

(** [predict] on doubles. *)
Definition predict_binary64 (m : Binary64.Library) (fmt : float -> string)
    (req : PredictRequest float) : result (PredictResponse float) :=
  @predict float (Binary64.float_ops m) (float_num fmt) req.

End Binary64Num.

(** ** The IPO endpoints of [main.py]

    The [database] module is not part of the sources: its objects are
    parameters here.  A state [St] stands for the contents of the database
    and whatever else its calls depend on; each call maps a state to the next
    one, and returns or raises. *)

Module Main.

Section Store.

Context {F : Type} {num : PyNum F}.

Import ListNotations.
Local Open Scope list_scope.
Local Open Scope string_scope.
Local Open Scope Z_scope.

(** A document: a dictionary with string keys, in insertion order. *)
Definition document : Type := list (string * json F).

(** [d.pop(key, None)] on a copy: the entry of [key] is gone. *)
Definition pop (key : string) (d : document) : document :=
  filter (fun kv => negb (String.eqb (fst kv) key)) d.

(** [d.get(key)] *)
Fixpoint get (d : document) (key : string) : option (json F) :=
  match d with
  | [] => None
  | (k, v) :: d' => if String.eqb k key then Some v else get d' key
  end.

(** Truth value of what [find_one] returns: [None] and the empty dictionary
    are false. *)
Definition doc_truthy (doc : option document) : bool :=
  match doc with
  | Some (_ :: _) => true
  | _ => false
  end.

(** [_serialize(doc)] *)
Definition _serialize (doc : option document) : option document :=
  if negb (doc_truthy doc) then doc
  else
    match doc with
    | Some d => Some (pop "_id" d)
    | None => None
    end.

(** [_fallback_list()] *)
Definition _fallback_list : list document :=
  [ [ ("name", JStr "Sample IPO");
      ("symbol", JStr "SAMPLE");
      ("sector", JStr "General");
      ("issuePrice", JFloat (dec 1000 1));
      ("currentPrice", JFloat (dec 1100 1));
      ("lotSize", JInt 150);
      ("listDate", JStr "2025-01-15");
      ("registrar", JStr "KFintech");
      ("exchanges", JList [JStr "NSE"; JStr "BSE"]);
      ("timeline",
       JDict [("bidding", JList [JStr "2025-01-01"; JStr "2025-01-03"]);
              ("listing", JStr "2025-01-15")]);
      ("subscription",
       JDict [("QIB", JFloat (dec 32 1)); ("NII", JFloat (dec 18 1));
              ("Retail", JFloat (dec 24 1))]);
      ("description", JStr "Demo IPO for environments without DB.") ] ].

(** The three documents of [seed]; [today] is
    [datetime.utcnow().strftime("%Y-%m-%d")]. *)
Definition seed (today : string) : list document :=
  [ [ ("name", JStr "Alpha Tech Solutions");
      ("symbol", JStr "ALPHATECH");
      ("sector", JStr "Technology");
      ("issuePrice", JFloat (dec 1200 1));
      ("currentPrice", JFloat (dec 1680 1));
      ("lotSize", JInt 125);
      ("listDate", JStr today);
      ("description",
       JStr "Cloud-first enterprise software provider with strong ARR growth.");
      ("registrar", JStr "KFintech");
      ("exchanges", JList [JStr "NSE"; JStr "BSE"]);
      ("timeline",
       JDict [("bidding", JList [JStr "2025-11-01"; JStr "2025-11-04"]);
              ("listing", JStr "2025-11-10")]);
      ("subscription",
       JDict [("QIB", JFloat (dec 125 1)); ("NII", JFloat (dec 82 1));
              ("Retail", JFloat (dec 53 1))]) ];
    [ ("name", JStr "Greenfield Foods");
      ("symbol", JStr "GREENFD");
      ("sector", JStr "FMCG");
      ("issuePrice", JFloat (dec 900 1));
      ("currentPrice", JFloat (dec 850 1));
      ("lotSize", JInt 160);
      ("listDate", JStr "2025-10-15");
      ("description", JStr "Packaged foods with pan-India distribution.");
      ("registrar", JStr "Link Intime");
      ("exchanges", JList [JStr "NSE"; JStr "BSE"]);
      ("timeline",
       JDict [("bidding", JList [JStr "2025-10-01"; JStr "2025-10-03"]);
              ("listing", JStr "2025-10-15")]);
      ("subscription",
       JDict [("QIB", JFloat (dec 21 1)); ("NII", JFloat (dec 14 1));
              ("Retail", JFloat (dec 12 1))]) ];
    [ ("name", JStr "Nimbus Logistics");
      ("symbol", JStr "NIMBUS");
      ("sector", JStr "Logistics");
      ("issuePrice", JFloat (dec 1500 1));
      ("currentPrice", JFloat (dec 1990 1));
      ("lotSize", JInt 100);
      ("listDate", JStr "2025-09-20");
      ("description",
       JStr "Integrated supply-chain services with multimodal network.");
      ("registrar", JStr "KFintech");
      ("exchanges", JList [JStr "NSE"]);
      ("timeline",
       JDict [("bidding", JList [JStr "2025-09-10"; JStr "2025-09-12"]);
              ("listing", JStr "2025-09-20")]);
      ("subscription",
       JDict [("QIB", JFloat (dec 68 1)); ("NII", JFloat (dec 34 1));
              ("Retail", JFloat (dec 29 1))]) ] ].

(** The queries of [get_ipo]: the symbol itself, then the symbol as an
    anchored regular expression without case. *)
Inductive query : Type :=
| BySymbol (symbol : string)
| ByRegex (pattern : string) (options : string).

(** What is imported from [database].  A call that raises gives the
    message of its exception. *)
Record DatabaseModule (St : Type) : Type := {
  db_is_none : bool;                                   (* [db is None] *)
  count_documents : St -> St * (string + Z);           (* [db["ipo"].count_documents({})] *)
  find_one : query -> St -> St * (string + option document);
  create_document : document -> St -> St * option string;
                                                       (* [Some msg]: raises *)
  get_documents : St -> St * (string + list document)
}.

Arguments db_is_none {St}.
Arguments count_documents {St}.
Arguments find_one {St}.
Arguments create_document {St}.
Arguments get_documents {St}.

Variable St : Type.
Variable database : DatabaseModule St.

(** Computations on the database: a state goes in, a state and a result or
    an exception come out. *)
Definition M (A : Type) : Type := St -> St * outcome A.

Definition ret {A : Type} (a : A) : M A := fun st => (st, Returns a).

Definition raise {A : Type} (e : error) : M A := fun st => (st, Raises e).

Definition seq {A B : Type} (m : M A) (k : A -> M B) : M B :=
  fun st =>
    match m st with
    | (st', Returns a) => k a st'
    | (st', Raises e) => (st', Raises e)
    end.

(** [try: m  except Exception: h] *)
Definition try_except {A : Type} (m : M A) (h : M A) : M A :=
  fun st =>
    match m st with
    | (st', Returns a) => (st', Returns a)
    | (st', Raises _) => h st'
    end.

(** A call of the module, as a computation. *)
Definition call {A : Type} (f : St -> St * (string + A)) : M A :=
  fun st =>
    match f st with
    | (st', inr a) => (st', Returns a)
    | (st', inl msg) => (st', Raises (DatabaseError msg))
    end.

Definition call_write (f : St -> St * option string) : M unit :=
  fun st =>
    match f st with
    | (st', None) => (st', Returns tt)
    | (st', Some msg) => (st', Raises (DatabaseError msg))
    end.

(** The loop of [_ensure_seed_data]: the first write that raises ends
    the function. *)
Fixpoint seed_loop (l : list document) : M unit :=
  match l with
  | [] => ret tt
  | s :: rest =>
      seq (try_except
             (seq (call_write (create_document database s))
                  (fun _ => ret true))
             (ret false))
          (fun written : bool => if written then seed_loop rest else ret tt)
  end.

(** [_ensure_seed_data()] *)
Definition _ensure_seed_data (today : string) : M unit :=
  try_except
    (if db_is_none database then ret tt
     else
       seq (call (count_documents database)) (fun count =>
       if count >? 0 then ret tt
       else seed_loop (seed today)))
    (ret tt).

(** The loop over the items of [_fallback_list()], with the [raise]
    that follows it. *)
Fixpoint fallback_lookup (items : list document) (symbol : string)
  : M document :=
  match items with
  | [] => raise (HTTPException 404 "IPO not found")
  | it :: rest =>
      match get it "symbol" with
      | Some (JStr s) =>
          if String.eqb (lower s) (lower symbol) then ret it
          else fallback_lookup rest symbol
      | Some _ => raise (AttributeError "lower")
      | None => raise (KeyError "symbol")
      end
  end.

(** [list_ipos()] *)
Definition list_ipos (today : string) : M (list (option document)) :=
  if db_is_none database then ret (map Some _fallback_list)
  else
    try_except
      (seq (_ensure_seed_data today) (fun _ =>
       seq (call (get_documents database)) (fun docs =>
       match docs with
       | [] => ret (map Some _fallback_list)
       | _ :: _ => ret (map (fun d => _serialize (Some d)) docs)
       end)))
      (ret (map Some _fallback_list)).

(** [get_ipo(symbol)].  The [HTTPException] raised inside [try] is an
    [Exception]: the handler catches it and searches the fallback again. *)
Definition get_ipo (symbol : string) : M (option document) :=
  if db_is_none database then
    seq (fallback_lookup _fallback_list symbol) (fun it => ret (Some it))
  else
    try_except
      (seq (call (find_one database (BySymbol symbol))) (fun doc =>
       seq (if negb (doc_truthy doc)
            then call (find_one database
                         (ByRegex ("^" ++ symbol ++ "$") "i"))
            else ret doc) (fun doc =>
       if negb (doc_truthy doc)
       then seq (fallback_lookup _fallback_list symbol)
                (fun it => ret (Some it))
       else ret (_serialize doc))))
      (seq (fallback_lookup _fallback_list symbol) (fun it => ret (Some it))).

End Store.

Arguments DatabaseModule : clear implicits.
Arguments db_is_none {F St}.
Arguments count_documents {F St}.
Arguments find_one {F St}.
Arguments create_document {F St}.
Arguments get_documents {F St}.
Arguments M : clear implicits.
Arguments ret {St A}.
Arguments raise {St A}.
Arguments seq {St A B}.
Arguments try_except {St A}.
Arguments call {St A}.
Arguments call_write {St}.
Arguments seed_loop {F St}.
Arguments _ensure_seed_data {F num St}.
Arguments fallback_lookup {F St}.
Arguments list_ipos {F num St}.
Arguments get_ipo {F num St}.

End Main.

(** * Proofs *)

Import Exact.

Local Open Scope R_scope.

(** ** Derivatives

    [derivable_pt_lim] for functions written as abstractions, and a
    tactic that differentiates an expression by its syntax. *)

Lemma dpl_eq (f : R -> R) (x l l' : R) :
  derivable_pt_lim f x l' -> l' = l -> derivable_pt_lim f x l.
Proof. intros h e; rewrite <- e; exact h. Qed.

Lemma dpl_comp (g f : R -> R) (x l1 l2 : R) :
  derivable_pt_lim f x l1 -> derivable_pt_lim g (f x) l2 ->
  derivable_pt_lim (fun y => g (f y)) x (l2 * l1).
Proof. intros h1 h2. apply (derivable_pt_lim_comp f g x l1 l2 h1 h2). Qed.

Lemma dpl_plus (f g : R -> R) x l1 l2 :
  derivable_pt_lim f x l1 -> derivable_pt_lim g x l2 ->
  derivable_pt_lim (fun y => f y + g y) x (l1 + l2).
Proof. apply derivable_pt_lim_plus. Qed.

Lemma dpl_minus (f g : R -> R) x l1 l2 :
  derivable_pt_lim f x l1 -> derivable_pt_lim g x l2 ->
  derivable_pt_lim (fun y => f y - g y) x (l1 - l2).
Proof. apply derivable_pt_lim_minus. Qed.

Lemma dpl_mult (f g : R -> R) x l1 l2 :
  derivable_pt_lim f x l1 -> derivable_pt_lim g x l2 ->
  derivable_pt_lim (fun y => f y * g y) x (l1 * g x + f x * l2).
Proof. apply derivable_pt_lim_mult. Qed.

Lemma dpl_opp (f : R -> R) x l :
  derivable_pt_lim f x l -> derivable_pt_lim (fun y => - f y) x (- l).
Proof. apply derivable_pt_lim_opp. Qed.

Lemma dpl_const (c x : R) : derivable_pt_lim (fun _ => c) x 0.
Proof. apply derivable_pt_lim_const. Qed.

Lemma dpl_id (x : R) : derivable_pt_lim (fun y => y) x 1.
Proof. apply derivable_pt_lim_id. Qed.

Lemma dpl_div (f g : R -> R) x l1 l2 :
  derivable_pt_lim f x l1 -> derivable_pt_lim g x l2 -> g x <> 0 ->
  derivable_pt_lim (fun y => f y / g y) x ((l1 * g x - l2 * f x) / (g x)²).
Proof. apply derivable_pt_lim_div. Qed.

Lemma dpl_pow (f : R -> R) (n : nat) x l :
  derivable_pt_lim f x l ->
  derivable_pt_lim (fun y => f y ^ n) x (INR n * f x ^ pred n * l).
Proof.
  intros h. apply dpl_comp with (g := fun y => y ^ n); [exact h | apply derivable_pt_lim_pow].
Qed.

Ltac dpl :=
  match goal with
  | |- derivable_pt_lim (fun y => ?c) _ _ => apply (dpl_const c)
  | |- derivable_pt_lim (fun y => y) _ _ => apply dpl_id
  | |- derivable_pt_lim (fun y => @?f y + @?g y) _ _ =>
      apply (dpl_plus f g); dpl
  | |- derivable_pt_lim (fun y => @?f y - @?g y) _ _ =>
      apply (dpl_minus f g); dpl
  | |- derivable_pt_lim (fun y => @?f y * @?g y) _ _ =>
      apply (dpl_mult f g); dpl
  | |- derivable_pt_lim (fun y => @?f y / @?g y) _ _ =>
      apply (dpl_div f g); [dpl | dpl | ]
  | |- derivable_pt_lim (fun y => - @?f y) _ _ =>
      apply (dpl_opp f); dpl
  | |- derivable_pt_lim (fun y => @?f y ^ ?n) _ _ =>
      apply (dpl_pow f n); dpl
  | |- derivable_pt_lim (fun y => exp (@?f y)) _ _ =>
      apply (dpl_comp exp f); [dpl | apply derivable_pt_lim_exp]
  | |- derivable_pt_lim (fun y => sin (@?f y)) _ _ =>
      apply (dpl_comp sin f); [dpl | apply derivable_pt_lim_sin]
  | |- derivable_pt_lim (fun y => cos (@?f y)) _ _ =>
      apply (dpl_comp cos f); [dpl | apply derivable_pt_lim_cos]
  | |- derivable_pt_lim (fun y => atan (@?f y)) _ _ =>
      apply (dpl_comp atan f); [dpl | apply derivable_pt_lim_atan]
  | |- derivable_pt_lim ?f _ _ => idtac
  end.

(** ** Integrals of continuous functions *)

Lemma integral_chasles (f : R -> R) (hc : continuity f) (a b c : R) :
  integral f hc a b + integral f hc b c = integral f hc a c.
Proof. unfold integral. apply RiemannInt_P26. Qed.

Lemma integral_same (f : R -> R) (hc : continuity f) (a : R) :
  integral f hc a a = 0.
Proof. apply RiemannInt_P9. Qed.

(** The fundamental theorem of calculus, for the upper bound. *)
Lemma integral_deriv (f : R -> R) (hc : continuity f) (a x : R) :
  derivable_pt_lim (integral f hc a) x (f x).
Proof.
  set (lo := Rmin a x - 1). set (hi := Rmax a x + 1).
  assert (h1 : lo < x) by (unfold lo; pose proof (Rmin_r a x); lra).
  assert (h2 : x < hi) by (unfold hi; pose proof (Rmax_r a x); lra).
  assert (h : lo <= hi) by lra.
  assert (C0 : forall y, lo <= y <= hi -> continuity_pt f y)
    by (intros y _; apply hc).
  apply derivable_pt_lim_locally_ext
    with (f := fun y => primitive h (FTC_P1 h C0) y - integral f hc lo a)
         (a := lo) (b := hi).
  - lra.
  - intros y [hy1 hy2].
    pose proof (integral_chasles f hc lo a y) as e.
    replace (primitive h (FTC_P1 h C0) y) with (integral f hc lo y); [lra | ].
    unfold primitive, integral.
    destruct (Rle_dec lo y) as [k1 | k1]; [ | lra].
    destruct (Rle_dec y hi) as [k2 | k2]; [ | lra].
    apply RiemannInt_P5.
  - replace (f x) with (f x - 0) by ring.
    apply derivable_pt_lim_minus.
    + apply RiemannInt_P28. lra.
    + apply derivable_pt_lim_const.
Qed.

(** ** The Gauss integral *)

Lemma gauss_int_deriv x : derivable_pt_lim gauss_int x (gauss x).
Proof. apply integral_deriv. Qed.

Lemma gauss_int_0 : gauss_int 0 = 0.
Proof. apply integral_same. Qed.

(** Monotonicity from the sign of the derivative on an interval. *)
Lemma deriv_nonneg_le (f f' : R -> R) (a b : R) :
  a <= b ->
  (forall c, a <= c <= b -> derivable_pt_lim f c (f' c)) ->
  (forall c, a <= c <= b -> 0 <= f' c) ->
  f a <= f b.
Proof.
  intros [hab | ->] hd hs; [ | lra].
  destruct (MVT_cor2 f f' a b hab hd) as (c & e & hc).
  assert (0 <= f' c * (b - a)) by (apply Rmult_le_pos; [apply hs | ]; lra).
  lra.
Qed.

Lemma deriv_pos_lt (f f' : R -> R) (a b : R) :
  a < b ->
  (forall c, a <= c <= b -> derivable_pt_lim f c (f' c)) ->
  (forall c, a <= c <= b -> 0 < f' c) ->
  f a < f b.
Proof.
  intros hab hd hs.
  destruct (MVT_cor2 f f' a b hab hd) as (c & e & hc).
  assert (0 < f' c * (b - a)) by (apply Rmult_lt_0_compat; [apply hs | ]; lra).
  lra.
Qed.

Lemma deriv_zero_eq (f : R -> R) (a b : R) :
  a <= b ->
  (forall c, a <= c <= b -> derivable_pt_lim f c 0) ->
  f a = f b.
Proof.
  intros [hab | ->] hd; [ | reflexivity].
  destruct (MVT_cor2 f (fun _ => 0) a b hab hd) as (c & e & hc).
  lra.
Qed.

Lemma gauss_pos x : 0 < gauss x.
Proof. apply exp_pos. Qed.

Lemma gauss_int_odd x : gauss_int (- x) = - gauss_int x.
Proof.
  assert (hd : forall c, derivable_pt_lim (fun y => gauss_int y + gauss_int (- y)) c 0).
  { intros c. eapply dpl_eq.
    - apply (dpl_plus gauss_int (fun y => gauss_int (- y))).
      + apply gauss_int_deriv.
      + apply (dpl_comp gauss_int (fun y => - y)); [dpl | apply gauss_int_deriv].
    - unfold gauss. replace (- c * - c) with (c * c) by ring. ring. }
  assert (h0 : gauss_int 0 + gauss_int (- 0) = 0)
    by (rewrite Ropp_0, gauss_int_0; ring).
  destruct (Rle_dec 0 x) as [h | h].
  - pose proof (deriv_zero_eq (fun y => gauss_int y + gauss_int (- y)) 0 x h
                  (fun c _ => hd c)) as e. simpl in e. lra.
  - pose proof (deriv_zero_eq (fun y => gauss_int y + gauss_int (- y)) x 0
                  ltac:(lra) (fun c _ => hd c)) as e. simpl in e. lra.
Qed.

Lemma gauss_int_incr x y : x < y -> gauss_int x < gauss_int y.
Proof.
  intros h. apply (deriv_pos_lt gauss_int gauss x y h).
  - intros c _. apply gauss_int_deriv.
  - intros c _. apply gauss_pos.
Qed.

Lemma gauss_int_nonneg x : 0 <= x -> 0 <= gauss_int x.
Proof.
  intros [h | <-].
  - left. rewrite <- gauss_int_0. apply gauss_int_incr, h.
  - rewrite gauss_int_0. lra.
Qed.

(** ** Wallis integrals *)

Lemma cospow_int_SS k t :
  cospow_int (S (S k)) t =
  (cos t ^ S k * sin t + INR (S k) * cospow_int k t) / INR (S (S k)).
Proof. reflexivity. Qed.

Lemma two_step (P : nat -> Prop) :
  P O -> P 1%nat -> (forall k, P k -> P (S (S k))) -> forall k, P k.
Proof.
  intros h0 h1 hs k.
  assert (h : P k /\ P (S k)).
  { induction k as [ | k [ih1 ih2]]; split; auto. }
  apply h.
Qed.

Lemma cospow_int_deriv k : forall t, derivable_pt_lim (cospow_int k) t (cos t ^ k).
Proof.
  induction k as [ | | k ih] using two_step; intros t.
  - simpl. apply derivable_pt_lim_id.
  - simpl. rewrite Rmult_1_r. apply derivable_pt_lim_sin.
  - apply derivable_pt_lim_ext with
      (f := fun t => (cos t ^ S k * sin t + INR (S k) * cospow_int k t) / INR (S (S k))).
    { intros z. symmetry. apply cospow_int_SS. }
    eapply dpl_eq.
    + dpl. * apply ih. * apply not_0_INR. discriminate.
    + pose proof (sin2_cos2 t) as hsc. unfold Rsqr in hsc.
      assert (hn : INR (S (S k)) <> 0) by (apply not_0_INR; discriminate).
      rewrite !S_INR in *. 
      cbn [pred pow]. unfold Rsqr.
      set (c := cos t) in *. set (s := sin t) in *. set (X := c ^ k).
      set (n := INR k) in *. 
      assert (e : s * s = 1 - c * c) by lra.
      assert (e1 : X * (s * s) = X * (1 - c * c)) by (rewrite e; ring).
      assert (e2 : n * X * (s * s) = n * X * (1 - c * c)) by (rewrite e; ring).
      field_simplify_eq; [ | lra]. lra.
Qed.

Lemma cospow_int_0 k : cospow_int k 0 = 0.
Proof.
  induction k as [ | | k ih] using two_step.
  - reflexivity.
  - simpl. apply sin_0.
  - rewrite cospow_int_SS, ih, sin_0. unfold Rdiv. ring.
Qed.

Lemma wallis_0 : wallis 0 = PI / 2.
Proof. reflexivity. Qed.

Lemma wallis_1 : wallis 1 = 1.
Proof. unfold wallis; simpl. apply sin_PI2. Qed.

Lemma wallis_SS k : wallis (S (S k)) = INR (S k) / INR (S (S k)) * wallis k.
Proof.
  unfold wallis. rewrite cospow_int_SS, cos_PI2.
  rewrite pow_i by lia. unfold Rdiv. ring.
Qed.

Lemma wallis_pos k : 0 < wallis k.
Proof.
  induction k as [ | | k ih] using two_step.
  - rewrite wallis_0. pose proof PI_RGT_0. lra.
  - rewrite wallis_1. lra.
  - rewrite wallis_SS. apply Rmult_lt_0_compat; [ | exact ih].
    apply Rdiv_lt_0_compat; apply lt_0_INR; lia.
Qed.

Lemma wallis_prod k : wallis k * wallis (S k) = PI / (2 * INR (S k)).
Proof.
  induction k as [ | k ih].
  - rewrite wallis_0, wallis_1. simpl. field.
  - rewrite wallis_SS.
    transitivity (INR (S k) / INR (S (S k)) * (wallis k * wallis (S k))); [ring | ].
    rewrite ih. field. split; apply not_0_INR; discriminate.
Qed.

Lemma cos_pow_nonneg k t : 0 <= t <= PI / 2 -> 0 <= cos t ^ k.
Proof. intros h. apply pow_le, cos_ge_0; lra. Qed.

Lemma cospow_int_le_wallis k t : 0 <= t <= PI / 2 -> cospow_int k t <= wallis k.
Proof.
  intros h. unfold wallis.
  apply (deriv_nonneg_le (cospow_int k) (fun t => cos t ^ k)); [lra | | ].
  - intros c _. apply cospow_int_deriv.
  - intros c hc. apply cos_pow_nonneg. lra.
Qed.

Lemma cospow_int_nonneg k t : 0 <= t <= PI / 2 -> 0 <= cospow_int k t.
Proof.
  intros h. rewrite <- (cospow_int_0 k).
  apply (deriv_nonneg_le (cospow_int k) (fun t => cos t ^ k)); [lra | | ].
  - intros c _. apply cospow_int_deriv.
  - intros c hc. apply cos_pow_nonneg. lra.
Qed.

Lemma wallis_decr k : wallis (S k) <= wallis k.
Proof.
  pose proof PI_RGT_0 as hpi.
  pose proof (deriv_nonneg_le
                (fun t => cospow_int k t - cospow_int (S k) t)
                (fun t => cos t ^ k - cos t ^ S k) 0 (PI / 2)) as h.
  cbv beta in h. rewrite !cospow_int_0 in h.
  unfold wallis.
  cut (0 - 0 <= cospow_int k (PI / 2) - cospow_int (S k) (PI / 2)); [lra | ].
  apply h; [lra | | ].
  - intros c _. apply (dpl_minus (cospow_int k) (cospow_int (S k))).
    + apply cospow_int_deriv.
    + apply (cospow_int_deriv (S k)).
  - intros c hc.
    assert (0 <= cos c) by (apply cos_ge_0; lra).
    pose proof (COS_bound c) as [_ h1].
    pose proof (cos_pow_nonneg k c hc). cbn [pow].
    replace (cos c ^ k - cos c * cos c ^ k) with (cos c ^ k * (1 - cos c)) by ring.
    apply Rmult_le_pos; lra.
Qed.

Lemma wallis_sq_le k : wallis (S k) * wallis (S k) <= PI / (2 * INR (S k)).
Proof.
  rewrite <- wallis_prod.
  apply Rmult_le_compat_r; [left; apply wallis_pos | apply wallis_decr].
Qed.

Lemma wallis_sq_ge k : PI / (2 * INR (S k)) <= wallis k * wallis k.
Proof.
  rewrite <- wallis_prod.
  apply Rmult_le_compat_l; [left; apply wallis_pos | apply wallis_decr].
Qed.

(** ** The Gauss integral is bounded by [sqrt PI / 2] *)

Lemma exp_INR_mult (k : nat) (u : R) : exp u ^ k = exp (INR k * u).
Proof.
  induction k as [ | k ih].
  - simpl. rewrite Rmult_0_l, exp_0. reflexivity.
  - rewrite S_INR. cbn [pow]. rewrite ih, <- exp_plus. f_equal. ring.
Qed.

Lemma cos_atan_sq (y : R) : cos (atan y) ^ 2 = / (1 + y * y).
Proof.
  rewrite cos_atan. unfold Rsqr.
  assert (h : 0 < 1 + y * y) by nra.
  assert (hs : 0 < sqrt (1 + y * y)) by (apply sqrt_lt_R0, h).
  pose proof (sqrt_sqrt (1 + y * y) ltac:(lra)) as e.
  cbn [pow]. field_simplify; [ | lra | lra].
  replace (sqrt (1 + y * y) ^ 2) with (1 + y * y) by (rewrite <- e at 1; ring).
  field_simplify; lra.
Qed.

Lemma atan_nonneg_bound (y : R) : 0 <= y -> 0 <= atan y <= PI / 2.
Proof.
  intros h. pose proof (atan_bound y) as [_ hb]. split; [ | lra].
  destruct h as [h | <-]; [ | rewrite atan_0; lra].
  left. rewrite <- atan_0. apply atan_increasing, h.
Qed.

(** The Gauss integral is below the integral of [(1 + x^2/n) ^ -n],
    which the substitution [x = sqrt n * tan t] turns into a Wallis
    integral. *)

Section WallisBound.

Variable j : nat.

Local Abbreviation n := (INR (S j)).

Lemma n_pos : 0 < n.
Proof. apply lt_0_INR. lia. Qed.

Lemma sqrt_n_pos : 0 < sqrt n.
Proof. apply sqrt_lt_R0, n_pos. Qed.

Lemma tan_subst_deriv (x : R) :
  derivable_pt_lim (tan_subst j) x (/ (1 + x * x / n) ^ S j).
Proof.
  pose proof n_pos as hn. pose proof sqrt_n_pos as hsn.
  pose proof (sqrt_sqrt n ltac:(lra)) as esn.
  unfold tan_subst.
  eapply dpl_eq.
  - apply (dpl_mult (fun _ => sqrt n)
             (fun y => cospow_int (2 * j) (atan (y / sqrt n)))).
    + dpl.
    + apply (dpl_comp (cospow_int (2 * j)) (fun y => atan (y / sqrt n))).
      * dpl. lra.
      * apply cospow_int_deriv.
  - cbv beta.
    rewrite pow_mult, cos_atan_sq.
    assert (e : x / sqrt n * (x / sqrt n) = x * x / n).
    { rewrite <- esn at 3. field. lra. }
    rewrite e.
    assert (hq : 0 < 1 + x * x / n).
    { assert (0 <= x * x / n); [ | lra].
      apply Rmult_le_pos; [nra | left; apply Rinv_0_lt_compat, hn]. }
    replace ((x / sqrt n) ^ 2) with (x * x / n) by (rewrite <- e; ring).
    cbn [pow]. rewrite pow_inv. unfold Rsqr.
    set (Q := (1 + x * x / n) ^ j).
    assert (hQ : 0 < Q) by (apply pow_lt, hq).
    field. repeat split; nra.
Qed.

Lemma gauss_le_tan_subst_deriv (x : R) : gauss x <= / (1 + x * x / n) ^ S j.
Proof.
  pose proof n_pos as hn.
  assert (hu : 0 <= x * x / n).
  { apply Rmult_le_pos; [nra | left; apply Rinv_0_lt_compat, hn]. }
  unfold gauss. rewrite exp_Ropp.
  apply Rinv_le_contravar; [apply pow_lt; lra | ].
  set (u := x * x / n) in *.
  assert (e : x * x = n * u) by (unfold u; field; lra).
  rewrite e, <- exp_INR_mult.
  apply pow_incr. split; [lra | apply exp_ineq1_le].
Qed.

Lemma gauss_int_le_tan_subst (x : R) : 0 <= x -> gauss_int x <= tan_subst j x.
Proof.
  intros hx.
  pose proof (deriv_nonneg_le (fun y => tan_subst j y - gauss_int y)
                (fun y => / (1 + y * y / n) ^ S j - gauss y) 0 x hx) as h.
  cbv beta in h.
  assert (e0 : tan_subst j 0 = 0).
  { unfold tan_subst. unfold Rdiv at 1. rewrite Rmult_0_l, atan_0, cospow_int_0. ring. }
  rewrite e0, gauss_int_0 in h.
  cut (0 - 0 <= tan_subst j x - gauss_int x); [lra | ].
  apply h.
  - intros c _. apply (dpl_minus (tan_subst j) gauss_int).
    + apply tan_subst_deriv.
    + apply gauss_int_deriv.
  - intros c _. pose proof (gauss_le_tan_subst_deriv c). lra.
Qed.

Lemma tan_subst_le_wallis (x : R) :
  0 <= x -> tan_subst j x <= sqrt n * wallis (2 * j).
Proof.
  intros hx. pose proof sqrt_n_pos as hsn. unfold tan_subst.
  apply Rmult_le_compat_l; [lra | ].
  apply cospow_int_le_wallis, atan_nonneg_bound.
  apply Rmult_le_pos; [lra | left; apply Rinv_0_lt_compat, hsn].
Qed.

End WallisBound.

Lemma gauss_int_sq_le_wallis (i : nat) (x : R) :
  0 <= x ->
  gauss_int x * gauss_int x <= PI / 4 * (1 + / INR (S i)).
Proof.
  intros hx.
  set (j := S i).
  pose proof (gauss_int_le_tan_subst j x hx) as h1.
  pose proof (tan_subst_le_wallis j x hx) as h2.
  pose proof (gauss_int_nonneg x hx) as h0.
  pose proof (n_pos j) as hn. pose proof (sqrt_n_pos j) as hsn.
  pose proof (sqrt_sqrt (INR (S j)) ltac:(lra)) as esn.
  assert (ew : (2 * j = S (S (2 * i)))%nat) by (unfold j; lia).
  pose proof (wallis_sq_le (S (2 * i))) as hw. rewrite <- ew in hw.
  pose proof (wallis_pos (2 * j)) as hwp.
  assert (hG : gauss_int x <= sqrt (INR (S j)) * wallis (2 * j)) by lra.
  assert (hsq : gauss_int x * gauss_int x <=
                (sqrt (INR (S j)) * wallis (2 * j)) * (sqrt (INR (S j)) * wallis (2 * j))).
  { apply Rmult_le_compat; lra. }
  replace ((sqrt (INR (S j)) * wallis (2 * j)) * (sqrt (INR (S j)) * wallis (2 * j)))
    with (INR (S j) * (wallis (2 * j) * wallis (2 * j))) in hsq
    by (rewrite <- esn at 1; ring).
  eapply Rle_trans; [exact hsq | ].
  eapply Rle_trans.
  { apply Rmult_le_compat_l; [lra | exact hw]. }
  rewrite ew. unfold j. rewrite !S_INR, mult_INR. simpl (INR 2).
  assert (0 <= INR i) by apply pos_INR.
  right. field. lra.
Qed.

Lemma gauss_int_sq_le (x : R) : 0 <= x -> gauss_int x * gauss_int x <= PI / 4.
Proof.
  intros hx.
  destruct (Rle_dec (gauss_int x * gauss_int x) (PI / 4)) as [h | h]; [exact h | exfalso].
  apply Rnot_le_lt in h.
  set (d := gauss_int x * gauss_int x - PI / 4) in *.
  assert (hd : 0 < d) by (unfold d; lra).
  pose proof PI_RGT_0 as hpi.
  destruct (INR_archimed d (PI / 4) hd) as [k hk].
  pose proof (gauss_int_sq_le_wallis k x hx) as hb.
  assert (hk0 : 0 < INR (S k)) by (apply lt_0_INR; lia).
  assert (hk1 : PI / 4 < INR (S k) * d).
  { rewrite S_INR. nra. }
  assert (PI / 4 * / INR (S k) < d).
  { apply Rmult_lt_reg_r with (INR (S k)); [exact hk0 | ].
    rewrite Rmult_assoc, Rinv_l by lra. lra. }
  unfold d in *. lra.
Qed.

Lemma gauss_int_le (x : R) : gauss_int x <= sqrt PI / 2.
Proof.
  pose proof PI_RGT_0 as hpi.
  assert (hs : 0 < sqrt PI) by (apply sqrt_lt_R0; lra).
  destruct (Rle_dec 0 x) as [hx | hx].
  - pose proof (gauss_int_sq_le x hx) as h.
    pose proof (gauss_int_nonneg x hx) as h0.
    pose proof (sqrt_sqrt PI ltac:(lra)) as e.
    destruct (Rle_dec (gauss_int x) (sqrt PI / 2)) as [hle | hgt]; [exact hle | exfalso].
    apply Rnot_le_lt in hgt.
    assert (sqrt PI / 2 * (sqrt PI / 2) < gauss_int x * gauss_int x)
      by (apply Rmult_le_0_lt_compat; lra).
    lra.
  - apply Rnot_le_lt in hx.
    pose proof (gauss_int_incr x 0 hx) as h. rewrite gauss_int_0 in h. lra.
Qed.

Lemma gauss_int_lt (x : R) : gauss_int x < sqrt PI / 2.
Proof.
  apply Rlt_le_trans with (gauss_int (x + 1)).
  - apply gauss_int_incr. lra.
  - apply gauss_int_le.
Qed.

Lemma gauss_int_gt (x : R) : - (sqrt PI / 2) < gauss_int x.
Proof.
  pose proof (gauss_int_lt (- x)) as h. rewrite gauss_int_odd in h. lra.
Qed.

(** ** The Gauss integral tends to [sqrt PI / 2] *)

Lemma sin_subst_deriv (j : nat) (t : R) :
  derivable_pt_lim (sin_subst j) t
    (sqrt (INR (S j)) * cos t *
     (gauss (sqrt (INR (S j)) * sin t) - cos t ^ (2 * S j))).
Proof.
  unfold sin_subst.
  eapply dpl_eq.
  - apply (dpl_minus (fun y => gauss_int (sqrt (INR (S j)) * sin y))
             (fun y => sqrt (INR (S j)) * cospow_int (S (2 * S j)) y)).
    + apply (dpl_comp gauss_int (fun y => sqrt (INR (S j)) * sin y)).
      * dpl.
      * apply gauss_int_deriv.
    + apply (dpl_mult (fun _ => sqrt (INR (S j))) (cospow_int (S (2 * S j)))).
      * dpl.
      * apply cospow_int_deriv.
  - cbv beta. rewrite <- tech_pow_Rmult. ring.
Qed.

Lemma cos_pow_le_gauss (j : nat) (t : R) :
  cos t ^ (2 * S j) <= gauss (sqrt (INR (S j)) * sin t).
Proof.
  assert (hn : 0 < INR (S j)) by (apply lt_0_INR; lia).
  pose proof (sqrt_sqrt (INR (S j)) ltac:(lra)) as esn.
  pose proof (sin2_cos2 t) as hsc. unfold Rsqr in hsc.
  unfold gauss.
  replace (- (sqrt (INR (S j)) * sin t * (sqrt (INR (S j)) * sin t)))
    with (INR (S j) * - (sin t * sin t))
    by (rewrite <- esn at 1; ring).
  rewrite <- exp_INR_mult, pow_mult.
  apply pow_incr. split.
  - apply pow2_ge_0.
  - pose proof (exp_ineq1_le (- (sin t * sin t))).
    replace (cos t ^ 2) with (1 + - (sin t * sin t)) by (cbn [pow]; lra).
    assumption.
Qed.

Lemma gauss_int_ge_wallis (j : nat) :
  sqrt (INR (S j)) * wallis (S (2 * S j)) <= gauss_int (sqrt (INR (S j))).
Proof.
  assert (hn : 0 < INR (S j)) by (apply lt_0_INR; lia).
  assert (hsn : 0 < sqrt (INR (S j))) by (apply sqrt_lt_R0, hn).
  pose proof PI_RGT_0 as hpi.
  assert (h : sin_subst j 0 <= sin_subst j (PI / 2)).
  { apply (deriv_nonneg_le (sin_subst j)
             (fun t => sqrt (INR (S j)) * cos t *
                       (gauss (sqrt (INR (S j)) * sin t) - cos t ^ (2 * S j))));
      [lra | | ].
    - intros c _. apply sin_subst_deriv.
    - intros c hc.
      apply Rmult_le_pos.
      + apply Rmult_le_pos; [lra | apply cos_ge_0; lra].
      + pose proof (cos_pow_le_gauss j c). lra. }
  unfold sin_subst in h.
  rewrite sin_0, sin_PI2, Rmult_0_r, Rmult_1_r, gauss_int_0, cospow_int_0 in h.
  fold (wallis (S (2 * S j))) in h. lra.
Qed.

Lemma gauss_int_sq_ge (j : nat) :
  PI / 4 * (1 - / (INR (S j) + 1)) <=
  gauss_int (sqrt (INR (S j))) * gauss_int (sqrt (INR (S j))).
Proof.
  assert (hn : 0 < INR (S j)) by (apply lt_0_INR; lia).
  assert (hsn : 0 < sqrt (INR (S j))) by (apply sqrt_lt_R0, hn).
  pose proof (sqrt_sqrt (INR (S j)) ltac:(lra)) as esn.
  pose proof (gauss_int_ge_wallis j) as h.
  pose proof (wallis_pos (S (2 * S j))) as hw.
  pose proof (wallis_sq_ge (S (2 * S j))) as hq.
  set (w := wallis (S (2 * S j))) in *.
  set (n := INR (S j)) in *.
  assert (en : INR (S (S (2 * S j))) = 2 * n + 2).
  { unfold n. rewrite 2!S_INR, mult_INR. change (INR 2) with 2. ring. }
  rewrite en in hq.
  apply Rle_trans with (n * (w * w)).
  - apply Rle_trans with (n * (PI / (2 * (2 * n + 2)))).
    + right. field. lra.
    + apply Rmult_le_compat_l; lra.
  - replace (n * (w * w)) with ((sqrt n * w) * (sqrt n * w))
      by (rewrite <- esn at 3; ring).
    assert (0 < sqrt n * w) by (apply Rmult_lt_0_compat; lra).
    apply Rmult_le_compat; lra.
Qed.

(** The Gauss integral tends to [sqrt PI / 2]. *)
Lemma gauss_int_lim (eps : R) :
  0 < eps -> exists M, forall x, M <= x -> sqrt PI / 2 - eps < gauss_int x.
Proof.
  intros heps.
  pose proof PI_RGT_0 as hpi.
  assert (hs : 0 < sqrt PI) by (apply sqrt_lt_R0; lra).
  pose proof (sqrt_sqrt PI ltac:(lra)) as e.
  set (c := sqrt PI / 2) in *.
  assert (hc : 0 < c) by (unfold c; lra).
  assert (ec : c * c = PI / 4) by (unfold c; lra).
  destruct (INR_archimed eps c heps) as [j hj].
  exists (sqrt (INR (S j))). intros x hx.
  apply Rlt_le_trans with (gauss_int (sqrt (INR (S j)))).
  2:{ destruct hx as [hx | <-]; [left; apply gauss_int_incr, hx | lra]. }
  pose proof (gauss_int_sq_ge j) as hq.
  assert (hn : 0 < INR (S j)) by (apply lt_0_INR; lia).
  assert (hsn : 0 < sqrt (INR (S j))) by (apply sqrt_lt_R0, hn).
  pose proof (gauss_int_nonneg (sqrt (INR (S j))) ltac:(lra)) as h0.
  set (G := gauss_int (sqrt (INR (S j)))) in *.
  set (n := INR (S j)) in *.
  assert (hn1 : c < (n + 1) * eps) by (unfold n; rewrite S_INR; nra).
  destruct (Rlt_dec (c - eps) G) as [ok | nok]; [exact ok | exfalso].
  apply Rnot_lt_le in nok.
  assert (hG : G * G <= (c - eps) * (c - eps)) by (apply Rmult_le_compat; lra).
  rewrite <- ec in hq.
  assert (hi : / (n + 1) * (n + 1) = 1) by (apply Rinv_l; lra).
  assert (hip : 0 < / (n + 1)) by (apply Rinv_0_lt_compat; lra).
  assert (c * / (n + 1) < eps).
  { apply Rmult_lt_reg_r with (n + 1); [lra | ]. rewrite Rmult_assoc, hi. lra. }
  nra.
Qed.

(** ** The normal distribution of [statistics] *)

Lemma sqrt_PI_pos : 0 < sqrt PI.
Proof. apply sqrt_lt_R0, PI_RGT_0. Qed.

Lemma sqrt_2_pos : 0 < sqrt 2.
Proof. apply sqrt_lt_R0; lra. Qed.

Lemma sqrt_2PI : sqrt (2 * PI) = sqrt 2 * sqrt PI.
Proof. apply sqrt_mult; [lra | left; apply PI_RGT_0]. Qed.

Lemma erf_odd x : erf (- x) = - erf x.
Proof. unfold erf. rewrite gauss_int_odd. ring. Qed.

Lemma erf_0 : erf 0 = 0.
Proof. unfold erf. rewrite gauss_int_0. ring. Qed.

Lemma erf_bound x : -1 < erf x < 1.
Proof.
  pose proof sqrt_PI_pos as hs.
  pose proof (gauss_int_lt x) as h1. pose proof (gauss_int_gt x) as h2.
  unfold erf.
  assert (e : 2 / sqrt PI * (sqrt PI / 2) = 1) by (field; lra).
  assert (hp : 0 < 2 / sqrt PI) by (apply Rdiv_lt_0_compat; lra).
  split.
  - replace (-1) with (2 / sqrt PI * - (sqrt PI / 2)) by lra.
    apply Rmult_lt_compat_l; assumption.
  - rewrite <- e. apply Rmult_lt_compat_l; assumption.
Qed.

Lemma erf_deriv x : derivable_pt_lim erf x (2 / sqrt PI * gauss x).
Proof.
  unfold erf. eapply dpl_eq.
  - apply (dpl_mult (fun _ => 2 / sqrt PI) gauss_int); [dpl | apply gauss_int_deriv].
  - ring.
Qed.

(** The library's density is the standard normal density. *)
Lemma pdf_norm x : pdf norm x = phi x.
Proof.
  unfold pdf, phi, norm; cbn [_mu _sigma].
  f_equal.
  - f_equal. field.
  - f_equal. ring.
Qed.

Lemma phi_pos x : 0 < phi x.
Proof.
  unfold phi. apply Rdiv_lt_0_compat; [apply exp_pos | ].
  apply sqrt_lt_R0. pose proof PI_RGT_0. lra.
Qed.

Lemma cdf_norm_erf x : cdf norm x = 1 / 2 + erf (x / sqrt 2) / 2.
Proof.
  unfold cdf, norm; cbn [_mu _sigma].
  replace ((x - 0) / (1 * sqrt 2)) with (x / sqrt 2)
    by (pose proof sqrt_2_pos; field; lra).
  lra.
Qed.

Lemma cdf_norm_0 : cdf norm 0 = 1 / 2.
Proof.
  rewrite cdf_norm_erf.
  replace (0 / sqrt 2) with 0 by (unfold Rdiv; ring).
  rewrite erf_0. lra.
Qed.

Lemma cdf_norm_deriv x : derivable_pt_lim (cdf norm) x (phi x).
Proof.
  pose proof sqrt_2_pos as h2. pose proof sqrt_PI_pos as hp.
  apply derivable_pt_lim_ext with (f := fun y => 1 / 2 + erf (y / sqrt 2) / 2).
  { intros z. symmetry. apply cdf_norm_erf. }
  eapply dpl_eq.
  - apply (dpl_plus (fun _ => 1 / 2) (fun y => erf (y / sqrt 2) / 2)); [dpl | ].
    apply (dpl_div (fun y => erf (y / sqrt 2)) (fun _ => 2)); [ | dpl | lra].
    apply (dpl_comp erf (fun y => y / sqrt 2)); [dpl; lra | apply erf_deriv].
  - cbv beta. unfold phi, gauss. rewrite sqrt_2PI.
    pose proof (sqrt_sqrt 2 ltac:(lra)) as e2.
    replace (- (x / sqrt 2 * (x / sqrt 2))) with (- x ^ 2 / 2).
    2:{ rewrite <- e2 at 1. field. lra. }
    unfold Rsqr. field_simplify; [ | lra | lra].
    replace (sqrt 2 ^ 2) with 2 by (rewrite <- e2 at 1; ring).
    field. lra.
Qed.

Lemma cdf_norm_sym x : cdf norm (- x) = 1 - cdf norm x.
Proof.
  rewrite !cdf_norm_erf.
  replace (- x / sqrt 2) with (- (x / sqrt 2)) by (unfold Rdiv; ring).
  rewrite erf_odd. lra.
Qed.

Lemma cdf_norm_bound x : 0 < cdf norm x < 1.
Proof.
  rewrite cdf_norm_erf. pose proof (erf_bound (x / sqrt 2)). lra.
Qed.

Lemma cdf_norm_incr x y : x < y -> cdf norm x < cdf norm y.
Proof.
  intros h. apply (deriv_pos_lt (cdf norm) phi x y h).
  - intros c _. apply cdf_norm_deriv.
  - intros c _. apply phi_pos.
Qed.

Lemma cdf_norm_lim_right (eps : R) :
  0 < eps -> exists M, forall x, M <= x -> 1 - eps < cdf norm x.
Proof.
  intros heps.
  pose proof sqrt_2_pos as h2. pose proof sqrt_PI_pos as hp.
  destruct (gauss_int_lim (eps * sqrt PI)) as [M hM].
  { apply Rmult_lt_0_compat; lra. }
  exists (M * sqrt 2). intros x hx.
  rewrite cdf_norm_erf. unfold erf.
  assert (hx' : M <= x / sqrt 2).
  { apply Rmult_le_reg_r with (sqrt 2); [lra | ].
    unfold Rdiv. rewrite Rmult_assoc, Rinv_l by lra. lra. }
  pose proof (hM _ hx') as h.
  set (G := gauss_int (x / sqrt 2)) in *.
  assert (e : 2 / sqrt PI * G / 2 = G / sqrt PI) by (field; lra).
  rewrite e.
  assert (1 / 2 - eps < G / sqrt PI); [ | lra].
  apply Rmult_lt_reg_r with (sqrt PI); [lra | ].
  unfold Rdiv at 2. rewrite Rmult_assoc, Rinv_l by lra. lra.
Qed.

Lemma cdf_norm_lim_left (eps : R) :
  0 < eps -> exists M, forall x, x <= M -> cdf norm x < eps.
Proof.
  intros heps. destruct (cdf_norm_lim_right eps heps) as [M hM].
  exists (- M). intros x hx.
  pose proof (hM (- x) ltac:(lra)) as h. rewrite cdf_norm_sym in h. lra.
Qed.

Lemma Phi_deriv x : derivable_pt_lim Phi x (phi x).
Proof.
  unfold Phi. eapply dpl_eq.
  - apply (dpl_plus (fun _ => 1 / 2) (integral phi phi_continuity 0)); [dpl | ].
    apply integral_deriv.
  - ring.
Qed.

Lemma Phi_0 : Phi 0 = 1 / 2.
Proof. unfold Phi. rewrite integral_same. ring. Qed.

(** The library's [cdf] is the standard normal distribution function. *)
Lemma cdf_norm_Phi x : cdf norm x = Phi x.
Proof.
  assert (hd : forall c, derivable_pt_lim (fun y => cdf norm y - Phi y) c 0).
  { intros c. replace 0 with (phi c - phi c) by ring.
    apply (dpl_minus (cdf norm) Phi); [apply cdf_norm_deriv | apply Phi_deriv]. }
  assert (h0 : cdf norm 0 - Phi 0 = 0) by (rewrite cdf_norm_0, Phi_0; ring).
  destruct (Rle_dec 0 x) as [h | h].
  - pose proof (deriv_zero_eq (fun y => cdf norm y - Phi y) 0 x h
                  (fun c _ => hd c)) as e. cbv beta in e. lra.
  - pose proof (deriv_zero_eq (fun y => cdf norm y - Phi y) x 0
                  ltac:(lra) (fun c _ => hd c)) as e. cbv beta in e. lra.
Qed.

(** ** Evaluating the pricer on real numbers *)

Lemma Rleb_true x y : Rleb x y = true <-> x <= y.
Proof.
  unfold Rleb; destruct (Rle_dec x y); split; intros; auto;
    try discriminate; contradiction.
Qed.

Lemma Rleb_false x y : Rleb x y = false <-> y < x.
Proof.
  unfold Rleb; destruct (Rle_dec x y); split; intros; auto;
    try discriminate; lra.
Qed.

Lemma fdiv_ok (x y : R) : y <> 0 -> fdiv x y = Ok (x / y).
Proof.
  intros h; simpl; destruct (Req_dec_T y 0); [contradiction | reflexivity].
Qed.

Lemma math_log_ok (x : R) : 0 < x -> math_log x = Ok (ln x).
Proof.
  intros h; simpl; destruct (Rlt_dec 0 x); [reflexivity | contradiction].
Qed.

Lemma math_sqrt_ok (x : R) : 0 <= x -> math_sqrt x = Ok (sqrt x).
Proof. intros h; simpl; destruct (Rlt_dec x 0); [lra | reflexivity]. Qed.

Lemma guard_false (S K T sigma : R) :
  0 < S -> 0 < K -> 0 < T -> 0 < sigma ->
  (fle T lit_0 || fle sigma lit_0 || fle S lit_0 || fle K lit_0)%bool = false.
Proof.
  intros. cbn [fle lit_0 RealFloat].
  rewrite !orb_false_iff, !Rleb_false. tauto.
Qed.

Lemma guard_true (S K T sigma : R) :
  T <= 0 \/ sigma <= 0 \/ S <= 0 \/ K <= 0 ->
  (fle T lit_0 || fle sigma lit_0 || fle S lit_0 || fle K lit_0)%bool = true.
Proof.
  intros h. cbn [fle lit_0 RealFloat].
  rewrite !orb_true_iff, !Rleb_true. tauto.
Qed.

Ltac nonzero :=
  cbn [fmul lit_2 lit_100 lit_365 RealFloat];
  apply Rgt_not_eq; repeat apply Rmult_lt_0_compat; lra.

Ltac eval_pricer hS hK hT hs :=
  unfold _black_scholes;
  rewrite (guard_false _ _ _ _ hS hK hT hs);
  rewrite fdiv_ok by (apply Rgt_not_eq, hK); cbn [bind];
  rewrite math_log_ok by (apply Rdiv_lt_0_compat; assumption); cbn [bind];
  cbn [fsquare RealFloat bind];
  rewrite !math_sqrt_ok by (left; exact hT); cbn [bind];
  repeat (rewrite fdiv_ok by nonzero;
          cbn [bind norm_cdf norm_pdf math_exp RealFloat]);
  cbn [fadd fsub fmul fneg lit_0_5 lit_2 lit_100 lit_365 RealFloat].

(** What the code returns on non-degenerate inputs. *)
Lemma black_scholes_value (S K T r sigma : R) (is_call : bool) :
  0 < S -> 0 < K -> 0 < T -> 0 < sigma ->
  _black_scholes S K T r sigma is_call =
  Ok (if is_call then bsm_call S K T r sigma else bsm_put S K T r sigma).
Proof.
  intros hS hK hT hs.
  assert (hrt : 0 < sqrt T) by (apply sqrt_lt_R0, hT).
  destruct is_call; eval_pricer hS hK hT hs;
    fold (bsm_d1 S K T r sigma); fold (bsm_d2 S K T r sigma);
    rewrite !cdf_norm_Phi, !pdf_norm;
    replace (- r * T) with (- (r * T)) by ring;
    unfold bsm_call, bsm_put; cbv zeta; do 2 f_equal; field; lra.
Qed.

(** The guard, in any number system. *)
Lemma degenerate_guard {F : Type} {ops : PyFloat F}
      (S K T r sigma : F) (is_call : bool) :
  (fle T lit_0 || fle sigma lit_0 || fle S lit_0 || fle K lit_0)%bool = true ->
  _black_scholes S K T r sigma is_call = Ok all_zero.
Proof. intros h. unfold _black_scholes. rewrite h. reflexivity. Qed.

(** The error branches exist in exact arithmetic. *)
Lemma math_log_domain (x : R) : x <= 0 -> math_log x = Raise ValueError.
Proof. intros h; simpl; destruct (Rlt_dec 0 x); [lra | reflexivity]. Qed.

Lemma math_sqrt_domain (x : R) : x < 0 -> math_sqrt x = Raise ValueError.
Proof. intros h; simpl; destruct (Rlt_dec x 0); [reflexivity | lra]. Qed.

Lemma fdiv_by_zero (x : R) : fdiv x 0 = Raise ZeroDivisionError.
Proof. simpl; destruct (Req_dec_T 0 0); [reflexivity | contradiction]. Qed.

Lemma degenerate_dec (S K T sigma : R) :
  (T <= 0 \/ sigma <= 0 \/ S <= 0 \/ K <= 0) \/
  (0 < S /\ 0 < K /\ 0 < T /\ 0 < sigma).
Proof.
  destruct (Rle_dec T 0); [tauto | ].
  destruct (Rle_dec sigma 0); [tauto | ].
  destruct (Rle_dec S 0); [tauto | ].
  destruct (Rle_dec K 0); [tauto | ].
  right. repeat split; lra.
Qed.


(** ** Sensitivity of the price to the volatility *)

Lemma Phi_sym x : Phi (- x) = 1 - Phi x.
Proof. rewrite <- !cdf_norm_Phi. apply cdf_norm_sym. Qed.

Lemma Phi_bound x : 0 < Phi x < 1.
Proof. rewrite <- cdf_norm_Phi. apply cdf_norm_bound. Qed.

Section Sensitivity.

Variables S K T r : R.
Hypothesis hS : 0 < S.
Hypothesis hK : 0 < K.
Hypothesis hT : 0 < T.

Lemma bsm_d1_deriv (c : R) :
  0 < c ->
  derivable_pt_lim (bsm_d1 S K T r) c (sqrt T - bsm_d1 S K T r c / c).
Proof.
  intros hc.
  assert (hrt : 0 < sqrt T) by (apply sqrt_lt_R0, hT).
  unfold bsm_d1. eapply dpl_eq.
  - dpl. apply Rgt_not_eq, Rmult_lt_0_compat; assumption.
  - cbv beta. unfold Rsqr. cbn [pred].
    pose proof (sqrt_sqrt T (Rlt_le _ _ hT)) as e.
    set (a := ln (S / K)). clearbody a.
    set (s := sqrt T) in *. clearbody s.
    rewrite <- e. cbn [INR]. replace 0.5 with (/ 2) by lra. field. lra.
Qed.

Lemma bsm_d2_deriv (c : R) :
  0 < c ->
  derivable_pt_lim (bsm_d2 S K T r) c (- (bsm_d1 S K T r c / c)).
Proof.
  intros hc. unfold bsm_d2. eapply dpl_eq.
  - apply (dpl_minus (bsm_d1 S K T r) (fun y => y * sqrt T)).
    + apply bsm_d1_deriv, hc.
    + dpl.
  - ring.
Qed.

(** The identity behind vega: [S phi(d1) = K exp(-rT) phi(d2)]. *)
Lemma phi_d1_d2 (c : R) :
  0 < c ->
  S * phi (bsm_d1 S K T r c) = K * exp (- (r * T)) * phi (bsm_d2 S K T r c).
Proof.
  intros hc.
  assert (hrt : 0 < sqrt T) by (apply sqrt_lt_R0, hT).
  assert (h2pi : 0 < sqrt (2 * PI)).
  { apply sqrt_lt_R0. pose proof PI_RGT_0. lra. }
  unfold phi.
  rewrite <- (exp_ln S hS) at 1. rewrite <- (exp_ln K hK) at 2.
  unfold Rdiv. rewrite <- !Rmult_assoc, <- !exp_plus.
  f_equal. f_equal.
  unfold bsm_d2, bsm_d1.
  assert (el : ln (S / K) = ln S - ln K).
  { unfold Rdiv. rewrite ln_mult, ln_Rinv; [ring | | | ]; try assumption.
    apply Rinv_0_lt_compat, hK. }
  rewrite el.
  pose proof (sqrt_sqrt T (Rlt_le _ _ hT)) as e.
  set (lS := ln S). set (lK := ln K). clearbody lS lK.
  set (s := sqrt T) in *. clearbody s.
  rewrite <- e. replace 0.5 with (/ 2) by lra. field. lra.
Qed.

Lemma call_price_deriv (c : R) :
  0 < c ->
  derivable_pt_lim (call_price S K T r) c (S * phi (bsm_d1 S K T r c) * sqrt T).
Proof.
  intros hc. unfold call_price, bsm_call. cbn [price].
  eapply dpl_eq.
  - apply (dpl_minus (fun y => S * Phi (bsm_d1 S K T r y))
             (fun y => K * exp (- (r * T)) * Phi (bsm_d2 S K T r y))).
    + apply (dpl_mult (fun _ => S) (fun y => Phi (bsm_d1 S K T r y))); [dpl | ].
      apply (dpl_comp Phi (bsm_d1 S K T r)); [apply bsm_d1_deriv, hc | apply Phi_deriv].
    + apply (dpl_mult (fun _ => K * exp (- (r * T)))
               (fun y => Phi (bsm_d2 S K T r y))); [dpl | ].
      apply (dpl_comp Phi (bsm_d2 S K T r)); [apply bsm_d2_deriv, hc | apply Phi_deriv].
  - cbv beta. pose proof (phi_d1_d2 c hc) as e.
    set (p1 := phi (bsm_d1 S K T r c)) in *.
    set (p2 := phi (bsm_d2 S K T r c)) in *.
    set (q := bsm_d1 S K T r c / c).
    transitivity (S * p1 * (sqrt T - q) + (K * exp (- (r * T)) * p2) * q); [ring | ].
    rewrite <- e. ring.
Qed.

Lemma put_call_price (sigma : R) :
  put_price S K T r sigma = call_price S K T r sigma - S + K * exp (- (r * T)).
Proof.
  unfold put_price, call_price, bsm_put, bsm_call. cbn [price].
  rewrite !Phi_sym. ring.
Qed.



End Sensitivity.

(** ** Polynomial bounds for [exp] and [Phi] *)

Lemma exp_taylor_deriv (k : nat) (u : R) :
  derivable_pt_lim (exp_taylor (S k)) u (- exp_taylor k u).
Proof.
  induction k as [ | k ih].
  - apply derivable_pt_lim_ext with (f := fun u => 1 + (- u) ^ 1 / INR (fact 1)).
    { intros z. reflexivity. }
    eapply dpl_eq; [dpl | ].
    + apply not_0_INR, fact_neq_0.
    + cbn. unfold Rsqr. field.
  - apply derivable_pt_lim_ext with
      (f := fun u => exp_taylor (S k) u + (- u) ^ S (S k) / INR (fact (S (S k)))).
    { intros z. reflexivity. }
    eapply dpl_eq.
    + apply (dpl_plus (exp_taylor (S k))
               (fun u => (- u) ^ S (S k) / INR (fact (S (S k))))); [exact ih | ].
      dpl. apply not_0_INR, fact_neq_0.
    + cbv beta. cbn [pred exp_taylor].
      assert (hf : INR (fact (S k)) <> 0) by apply not_0_INR, fact_neq_0.
      replace (INR (fact (S (S k)))) with (INR (S (S k)) * INR (fact (S k)))
        by (rewrite <- mult_INR; reflexivity).
      assert (hn : INR (S (S k)) <> 0) by (apply not_0_INR; discriminate).
      unfold Rsqr. field. split; assumption.
Qed.

(** The partial sums bound [exp (- u)] alternately from above and below. *)
Lemma exp_taylor_alt (k : nat) (u : R) :
  0 <= u -> 0 <= (-1) ^ k * (exp_taylor k u - exp (- u)).
Proof.
  revert u. induction k as [ | k ih]; intros u hu.
  - cbn. assert (exp (- u) <= 1); [ | lra].
    rewrite <- exp_0. destruct hu as [hu | <-].
    + left. apply exp_increasing. lra.
    + rewrite Ropp_0. lra.
  - pose proof (deriv_nonneg_le
                  (fun v => (-1) ^ S k * (exp_taylor (S k) v - exp (- v)))
                  (fun v => (-1) ^ k * (exp_taylor k v - exp (- v))) 0 u hu) as h.
    cbv beta in h.
    replace ((-1) ^ S k * (exp_taylor (S k) 0 - exp (- 0))) with 0 in h.
    + apply h.
      * intros c _. eapply dpl_eq.
        -- apply (dpl_mult (fun _ => (-1) ^ S k)
                    (fun v => exp_taylor (S k) v - exp (- v))); [dpl | ].
           apply (dpl_minus (exp_taylor (S k)) (fun v => exp (- v)));
             [apply exp_taylor_deriv | dpl].
        -- cbv beta. cbn [pow]. ring.
      * intros c hc. apply ih. lra.
    + assert (e : forall j, exp_taylor j 0 = 1).
      { induction j as [ | j ihj]; [reflexivity | ].
        cbn [exp_taylor]. rewrite ihj, Ropp_0, pow_i by lia. unfold Rdiv. ring. }
      rewrite e, Ropp_0, exp_0. ring.
Qed.

Lemma exp_taylor_upper (k : nat) (u : R) :
  0 <= u -> exp (- u) <= exp_taylor (2 * k) u.
Proof.
  intros hu. pose proof (exp_taylor_alt (2 * k) u hu) as h.
  rewrite pow_1_even in h. lra.
Qed.

Lemma exp_taylor_lower (k : nat) (u : R) :
  0 <= u -> exp_taylor (S (2 * k)) u <= exp (- u).
Proof.
  intros hu. pose proof (exp_taylor_alt (S (2 * k)) u hu) as h.
  rewrite pow_1_odd in h. lra.
Qed.

Lemma gauss_poly_lo_deriv x :
  derivable_pt_lim gauss_poly_lo x (exp_taylor 3 (x ^ 2 / 2)).
Proof.
  unfold gauss_poly_lo. eapply dpl_eq; [dpl; lra | ].
  cbn. unfold Rsqr. field.
Qed.

Lemma gauss_poly_hi_deriv x :
  derivable_pt_lim gauss_poly_hi x (exp_taylor 4 (x ^ 2 / 2)).
Proof.
  unfold gauss_poly_hi, gauss_poly_lo. eapply dpl_eq; [dpl; lra | ].
  cbn. unfold Rsqr. field.
Qed.

Lemma phi_exp x : phi x = / sqrt (2 * PI) * exp (- (x ^ 2 / 2)).
Proof.
  unfold phi. replace (- x ^ 2 / 2) with (- (x ^ 2 / 2)) by (unfold Rdiv; ring).
  unfold Rdiv. ring.
Qed.

Lemma inv_sqrt_2PI_pos : 0 < / sqrt (2 * PI).
Proof.
  apply Rinv_0_lt_compat, sqrt_lt_R0. pose proof PI_RGT_0. lra.
Qed.

Lemma Phi_poly_bounds x :
  0 <= x ->
  1 / 2 + / sqrt (2 * PI) * gauss_poly_lo x <= Phi x
  <= 1 / 2 + / sqrt (2 * PI) * gauss_poly_hi x.
Proof.
  intros hx. pose proof inv_sqrt_2PI_pos as hc.
  assert (hu : forall c, 0 <= c ^ 2 / 2) by (intros c; nra).
  split.
  - pose proof (deriv_nonneg_le
                  (fun y => Phi y - / sqrt (2 * PI) * gauss_poly_lo y)
                  (fun y => / sqrt (2 * PI) *
                            (exp (- (y ^ 2 / 2)) - exp_taylor 3 (y ^ 2 / 2)))
                  0 x hx) as h.
    cbv beta in h. rewrite Phi_0 in h.
    replace (gauss_poly_lo 0) with 0 in h by (unfold gauss_poly_lo; field).
    cut (1 / 2 - / sqrt (2 * PI) * 0 <= Phi x - / sqrt (2 * PI) * gauss_poly_lo x);
      [lra | ].
    apply h.
    + intros c _. eapply dpl_eq.
      * apply (dpl_minus Phi (fun y => / sqrt (2 * PI) * gauss_poly_lo y));
          [apply Phi_deriv | ].
        apply (dpl_mult (fun _ => / sqrt (2 * PI)) gauss_poly_lo);
          [dpl | apply gauss_poly_lo_deriv].
      * rewrite phi_exp. ring.
    + intros c _. apply Rmult_le_pos; [lra | ].
      pose proof (exp_taylor_lower 1 (c ^ 2 / 2) (hu c)) as hl.
      change (S (2 * 1)) with 3%nat in hl. lra.
  - pose proof (deriv_nonneg_le
                  (fun y => / sqrt (2 * PI) * gauss_poly_hi y - Phi y)
                  (fun y => / sqrt (2 * PI) *
                            (exp_taylor 4 (y ^ 2 / 2) - exp (- (y ^ 2 / 2))))
                  0 x hx) as h.
    cbv beta in h. rewrite Phi_0 in h.
    replace (gauss_poly_hi 0) with 0 in h
      by (unfold gauss_poly_hi, gauss_poly_lo; field).
    cut (/ sqrt (2 * PI) * 0 - 1 / 2 <= / sqrt (2 * PI) * gauss_poly_hi x - Phi x);
      [lra | ].
    apply h.
    + intros c _. eapply dpl_eq.
      * apply (dpl_minus (fun y => / sqrt (2 * PI) * gauss_poly_hi y) Phi);
          [ | apply Phi_deriv].
        apply (dpl_mult (fun _ => / sqrt (2 * PI)) gauss_poly_hi);
          [dpl | apply gauss_poly_hi_deriv].
      * rewrite phi_exp. ring.
    + intros c _. apply Rmult_le_pos; [lra | ].
      pose proof (exp_taylor_upper 2 (c ^ 2 / 2) (hu c)) as hl.
      change (2 * 2)%nat with 4%nat in hl. lra.
Qed.

(** ** Numerical bounds *)

Lemma PI_bounds : 3.14159265 < PI < 3.1415927.
Proof.
  pose proof (PI_2_3_7_ineq 3) as [h1 h2].
  cbv [sum_f_R0 tg_alt PI_2_3_7_tg Ratan_seq Nat.mul Nat.add pow] in h1, h2.
  repeat rewrite INR_IZR_INZ in h1. repeat rewrite INR_IZR_INZ in h2.
  cbn [Z.of_nat Pos.of_succ_nat Pos.succ] in h1, h2.
  split; lra.
Qed.

Lemma inv_sqrt_2PI_bounds : 0.3989422 < / sqrt (2 * PI) < 0.3989423.
Proof.
  pose proof PI_bounds as [hp1 hp2].
  pose proof inv_sqrt_2PI_pos as hc.
  assert (hs : 0 < sqrt (2 * PI)) by (apply sqrt_lt_R0; lra).
  pose proof (sqrt_sqrt (2 * PI) ltac:(lra)) as e.
  set (c := / sqrt (2 * PI)) in *.
  assert (ec : c * c * (2 * PI) = 1).
  { rewrite <- e. unfold c. field. lra. }
  set (q := c * c) in *.
  assert (hq : 0 < q) by (unfold q; nra).
  assert (hq1 : 0.3989422 * 0.3989422 < q) by nra.
  assert (hq2 : q < 0.3989423 * 0.3989423) by nra.
  unfold q in *. split; nra.
Qed.

Lemma exp_m005_bounds : 0.95122942 < exp (Ropp 0.05) < 0.95122943.
Proof.
  pose proof (exp_taylor_lower 2 0.05 ltac:(lra)) as h1.
  pose proof (exp_taylor_upper 2 0.05 ltac:(lra)) as h2.
  cbv [exp_taylor Nat.mul Nat.add pow fact] in h1, h2.
  repeat rewrite INR_IZR_INZ in h1. repeat rewrite INR_IZR_INZ in h2.
  cbn [Z.of_nat Pos.of_succ_nat Pos.succ] in h1, h2.
  split; lra.
Qed.

Lemma Phi_035_bounds : 0.63683061 < Phi 0.35 < 0.63683066.
Proof.
  pose proof (Phi_poly_bounds 0.35 ltac:(lra)) as [h1 h2].
  pose proof inv_sqrt_2PI_bounds as [hc1 hc2].
  unfold gauss_poly_hi, gauss_poly_lo in h1, h2.
  set (c := / sqrt (2 * PI)) in *.
  split; nra.
Qed.

Lemma Phi_015_bounds : 0.55961768 < Phi 0.15 < 0.5596177.
Proof.
  pose proof (Phi_poly_bounds 0.15 ltac:(lra)) as [h1 h2].
  pose proof inv_sqrt_2PI_bounds as [hc1 hc2].
  unfold gauss_poly_hi, gauss_poly_lo in h1, h2.
  set (c := / sqrt (2 * PI)) in *.
  split; nra.
Qed.

Lemma scenario_d1 : bsm_d1 100 100 1 0.05 0.2 = 0.35.
Proof.
  unfold bsm_d1. replace (100 / 100) with 1 by lra.
  rewrite ln_1, sqrt_1. lra.
Qed.

Lemma scenario_d2 : bsm_d2 100 100 1 0.05 0.2 = 0.15.
Proof. unfold bsm_d2. rewrite scenario_d1, sqrt_1. lra. Qed.

(** ** Properties of the pricer *)

Lemma Phi_lim_right (eps : R) :
  0 < eps -> exists M, forall x, M <= x -> 1 - eps < Phi x.
Proof.
  intros h. destruct (cdf_norm_lim_right eps h) as [M hM].
  exists M. intros x hx. rewrite <- cdf_norm_Phi. apply hM, hx.
Qed.

Lemma Phi_lim_left (eps : R) :
  0 < eps -> exists M, forall x, x <= M -> Phi x < eps.
Proof.
  intros h. destruct (cdf_norm_lim_left eps h) as [M hM].
  exists M. intros x hx. rewrite <- cdf_norm_Phi. apply hM, hx.
Qed.

(** The pricer returns on every real input. *)
Lemma black_scholes_returns (S K T r sigma : R) (is_call : bool) :
  exists res, _black_scholes S K T r sigma is_call = Ok res.
Proof.
  destruct (degenerate_dec S K T sigma) as [h | (hS & hK & hT & hs)].
  - exists all_zero. apply degenerate_guard, guard_true, h.
  - eexists. apply black_scholes_value; assumption.
Qed.

Lemma bind_ret {A : Type} (m : result A) : bind m (fun x => Ok x) = m.
Proof. destruct m; reflexivity. Qed.

Example lower_CALL : lower "CALL" = "call"%string.
Proof. reflexivity. Qed.

Example lower_Put : String.eqb (lower "Put") "call" = false.
Proof. reflexivity. Qed.

Example lower_garbage : String.eqb (lower "anything-else") "call" = false.
Proof. reflexivity. Qed.

(** C1 -- Closed form.  For every input with [S > 0], [K > 0], [T > 0]
    and [sigma > 0] the pricer returns the Black-Scholes-Merton values of
    the specification: with [d1] and [d2] as defined there, the call
    branch returns [bsm_call] and the put branch [bsm_put], whose fields
    are the price, delta, gamma, vega, theta and rho formulas written
    with the standard normal distribution function [Phi] and its density
    [phi], rho and vega divided by 100 and theta by 365. *)
Theorem black_scholes_closed_form (S K T r sigma : R) :
  0 < S -> 0 < K -> 0 < T -> 0 < sigma ->
  _black_scholes S K T r sigma true = Ok (bsm_call S K T r sigma) /\
  _black_scholes S K T r sigma false = Ok (bsm_put S K T r sigma).
Proof.
  intros hS hK hT hs.
  split; [apply (black_scholes_value S K T r sigma true)
         | apply (black_scholes_value S K T r sigma false)]; assumption.
Qed.

Lemma black_scholes_closed_form_witness :
  _black_scholes 100 100 1 0.05 0.2 true = Ok (bsm_call 100 100 1 0.05 0.2) /\
  _black_scholes 100 100 1 0.05 0.2 false = Ok (bsm_put 100 100 1 0.05 0.2).
Proof. apply (black_scholes_closed_form 100 100 1 0.05 0.2); lra. Defined.

(** C2 -- Degenerate inputs.  When at least one of [T <= 0],
    [sigma <= 0], [S <= 0], [K <= 0] holds, the pricer returns the six
    outputs equal to zero, whatever [r] and the flag are. *)
Theorem degenerate_inputs_zero (S K T r sigma : R) (is_call : bool) :
  T <= 0 \/ sigma <= 0 \/ S <= 0 \/ K <= 0 ->
  _black_scholes S K T r sigma is_call =
  Ok {| price := 0; delta := 0; gamma := 0; vega := 0; theta := 0; rho := 0 |}.
Proof.
  intros h. unfold _black_scholes.
  rewrite (guard_true S K T sigma h). reflexivity.
Qed.

Lemma degenerate_inputs_zero_witness :
  _black_scholes 100 100 0 0.05 0.2 true =
  Ok {| price := 0; delta := 0; gamma := 0; vega := 0; theta := 0; rho := 0 |}.
Proof. apply (degenerate_inputs_zero 100 100 0 0.05 0.2 true). left. lra. Defined.

(** C3, as amended -- Totality in exact arithmetic.  On real numbers
    the pricer never raises: for every [S], [K], [T], [r], [sigma] and
    either flag it returns a six-field result.  Past the guard the
    argument of [math.log], the argument of [math.sqrt] and the divisors
    [K], [sigma * sqrt(T)], [2 * sqrt(T)] and [S * sigma * sqrt(T)] are
    strictly positive, so neither [ValueError] nor [ZeroDivisionError]
    is reachable. *)
Theorem black_scholes_total_exact :
  (forall (S K T r sigma : R) (is_call : bool),
      exists res : OptionResponse R,
        _black_scholes S K T r sigma is_call = Ok res) /\
  (forall S K T sigma : R,
      (fle T lit_0 || fle sigma lit_0 || fle S lit_0 || fle K lit_0)%bool
      = false ->
      0 < K /\ 0 < S / K /\ 0 < T /\ 0 < sigma * sqrt T /\
      0 < 2 * sqrt T /\ 0 < S * sigma * sqrt T).
Proof.
  split.
  - intros S K T r sigma is_call.
    destruct (degenerate_dec S K T sigma) as [h | (hS & hK & hT & hs)].
    + exists all_zero. apply degenerate_guard, guard_true, h.
    + exists (if is_call then bsm_call S K T r sigma else bsm_put S K T r sigma).
      apply black_scholes_value; assumption.
  - intros S K T sigma h. cbn [fle lit_0 RealFloat] in h.
    rewrite !orb_false_iff, !Rleb_false in h.
    destruct h as (((hT & hs) & hS) & hK).
    assert (hrt : 0 < sqrt T) by (apply sqrt_lt_R0, hT).
    assert (hsr : 0 < sigma * sqrt T) by (apply Rmult_lt_0_compat; assumption).
    repeat split; try assumption.
    + apply Rdiv_lt_0_compat; assumption.
    + lra.
    + rewrite Rmult_assoc. apply Rmult_lt_0_compat; assumption.
Qed.

Lemma lower_ascii_letter (x : ascii) :
  (lower_ascii x = "c" <-> x = "c" \/ x = "C")%char /\
  (lower_ascii x = "a" <-> x = "a" \/ x = "A")%char /\
  (lower_ascii x = "l" <-> x = "l" \/ x = "L")%char.
Proof.
  destruct x as [[ | ] [ | ] [ | ] [ | ] [ | ] [ | ] [ | ] [ | ]];
    vm_compute; repeat split; intros h;
    try discriminate h; try (destruct h as [h | h]; discriminate h); auto.
Qed.

Lemma lower_call (s : string) : lower s = "call"%string <-> spells_call s.
Proof.
  split.
  - destruct s as [ | c1 [ | c2 [ | c3 [ | c4 [ | c5 s]]]]];
      cbn [lower]; try discriminate.
    intros h. injection h as h1 h2 h3 h4.
    exists c1, c2, c3, c4. split; [reflexivity | ].
    repeat split.
    + apply (lower_ascii_letter c1), h1.
    + apply (lower_ascii_letter c2), h2.
    + apply (lower_ascii_letter c3), h3.
    + apply (lower_ascii_letter c4), h4.
  - intros [c1 [c2 [c3 [c4 [-> [h1 [h2 [h3 h4]]]]]]]]. cbn [lower].
    apply (lower_ascii_letter c1) in h1. apply (lower_ascii_letter c2) in h2.
    apply (lower_ascii_letter c3) in h3. apply (lower_ascii_letter c4) in h4.
    rewrite h1, h2, h3, h4. reflexivity.
Qed.

(** C4 -- Type dispatch.  The endpoint returns what the pricer returns
    on the call branch when [type] is one of the sixteen spellings of
    the word call (c, a, l, l, each letter in either case), and what it
    returns on the put branch for every other string; the flag is true
    exactly when the lowercased [type] equals ["call"].  In particular
    ["call"], ["CALL"] and ["cAlL"] are priced as calls and give the
    same response, ["put"], ["PUT"], the empty string, ["calls"],
    [" call"] and ["anything-else"] are priced as puts, and on real
    numbers no [type] is rejected: the endpoint returns a response for
    every request. *)
Theorem type_dispatch_binary :
  (forall (F : Type) (ops : PyFloat F) (req : OptionRequest F),
      exists is_call : bool,
        (is_call = true <-> lower (req_type req) = "call"%string) /\
        (is_call = true <-> spells_call (req_type req)) /\
        black_scholes req =
        _black_scholes (req_S req) (req_K req) (req_T req) (req_r req)
          (req_sigma req) is_call) /\
  (forall (F : Type) (ops : PyFloat F) (S K T r sigma : F) (type : string),
      In type ("call" :: "CALL" :: "Call" :: "cAlL" :: nil)%string ->
      black_scholes (Build_OptionRequest S K T r sigma type) =
      _black_scholes S K T r sigma true) /\
  (forall (F : Type) (ops : PyFloat F) (S K T r sigma : F) (type : string),
      In type ("put" :: "PUT" :: EmptyString :: "calls" :: " call"
               :: "c all" :: "anything-else" :: nil)%string ->
      black_scholes (Build_OptionRequest S K T r sigma type) =
      _black_scholes S K T r sigma false) /\
  (forall (F : Type) (ops : PyFloat F) (S K T r sigma : F),
      black_scholes (Build_OptionRequest S K T r sigma "CALL") =
      black_scholes (Build_OptionRequest S K T r sigma "call")) /\
  (forall req : OptionRequest R, exists res, black_scholes req = Ok res).
Proof.
  split; [ | split; [ | split; [ | split]]].
  - intros F ops req.
    exists (String.eqb (lower (req_type req)) "call").
    split; [apply String.eqb_eq | ].
    split; [rewrite String.eqb_eq; apply lower_call | ].
    unfold black_scholes. apply bind_ret.
  - intros F ops S K T r sigma type h. cbn [In] in h.
    unfold black_scholes. rewrite bind_ret. cbn [req_type].
    destruct h as [<- | [<- | [<- | [<- | []]]]]; reflexivity.
  - intros F ops S K T r sigma type h. cbn [In] in h.
    unfold black_scholes. rewrite bind_ret. cbn [req_type].
    destruct h as [<- | [<- | [<- | [<- | [<- | [<- | [<- | []]]]]]]];
      reflexivity.
  - intros F ops S K T r sigma. reflexivity.
  - intros req. unfold black_scholes. rewrite bind_ret.
    apply black_scholes_returns.
Qed.

(** C5 -- Put-call parity.  For every non-degenerate input the call
    price minus the put price, computed from the same [S], [K], [T],
    [r], [sigma], is [S - K * exp (- r T)], exactly in exact
    arithmetic. *)
Theorem put_call_parity (S K T r sigma : R) :
  0 < S -> 0 < K -> 0 < T -> 0 < sigma ->
  exists c p : OptionResponse R,
    _black_scholes S K T r sigma true = Ok c /\
    _black_scholes S K T r sigma false = Ok p /\
    price c - price p = S - K * exp (- (r * T)).
Proof.
  intros hS hK hT hs.
  exists (bsm_call S K T r sigma), (bsm_put S K T r sigma).
  split; [apply (black_scholes_value S K T r sigma true); assumption | ].
  split; [apply (black_scholes_value S K T r sigma false); assumption | ].
  cbn [price bsm_call bsm_put]. rewrite !Phi_sym. ring.
Qed.

Lemma put_call_parity_witness :
  exists c p : OptionResponse R,
    _black_scholes 100 100 1 0.05 0.2 true = Ok c /\
    _black_scholes 100 100 1 0.05 0.2 false = Ok p /\
    price c - price p = 100 - 100 * exp (- (0.05 * 1)).
Proof. apply (put_call_parity 100 100 1 0.05 0.2); lra. Defined.

(** C6 -- Delta difference.  For every non-degenerate input the call
    delta minus the put delta is exactly one in exact arithmetic. *)
Theorem delta_call_minus_put (S K T r sigma : R) :
  0 < S -> 0 < K -> 0 < T -> 0 < sigma ->
  exists c p : OptionResponse R,
    _black_scholes S K T r sigma true = Ok c /\
    _black_scholes S K T r sigma false = Ok p /\
    delta c - delta p = 1.
Proof.
  intros hS hK hT hs.
  exists (bsm_call S K T r sigma), (bsm_put S K T r sigma).
  split; [apply (black_scholes_value S K T r sigma true); assumption | ].
  split; [apply (black_scholes_value S K T r sigma false); assumption | ].
  cbn [delta bsm_call bsm_put]. rewrite Phi_sym. ring.
Qed.

Lemma delta_call_minus_put_witness :
  exists c p : OptionResponse R,
    _black_scholes 100 100 1 0.05 0.2 true = Ok c /\
    _black_scholes 100 100 1 0.05 0.2 false = Ok p /\
    delta c - delta p = 1.
Proof. apply (delta_call_minus_put 100 100 1 0.05 0.2); lra. Defined.

(** C7 -- Gamma and vega do not depend on the flag.  For every [S],
    [K], [T], [r], [sigma], degenerate or not, the call branch and the
    put branch return the same gamma and the same vega. *)
Theorem gamma_vega_flag_independent (S K T r sigma : R) :
  exists c p : OptionResponse R,
    _black_scholes S K T r sigma true = Ok c /\
    _black_scholes S K T r sigma false = Ok p /\
    gamma c = gamma p /\ vega c = vega p.
Proof.
  destruct (degenerate_dec S K T sigma) as [h | (hS & hK & hT & hs)].
  - exists all_zero, all_zero.
    split; [apply degenerate_guard, guard_true, h | ].
    split; [apply degenerate_guard, guard_true, h | ].
    split; reflexivity.
  - exists (bsm_call S K T r sigma), (bsm_put S K T r sigma).
    split; [apply (black_scholes_value S K T r sigma true); assumption | ].
    split; [apply (black_scholes_value S K T r sigma false); assumption | ].
    split; reflexivity.
Qed.



(** C9 -- Concrete scenario.  For [S = 100], [K = 100], [T = 1],
    [r = 0.05], [sigma = 0.2] the call branch returns a price within
    [0.00005] of [10.4506] and a delta within [0.00005] of [0.6368], the
    put branch a price within [0.00005] of [5.5735] and a delta within
    [0.00005] of [-0.3632]. *)
Theorem scenario_at_the_money :
  exists c p : OptionResponse R,
    _black_scholes 100 100 1 0.05 0.2 true = Ok c /\
    _black_scholes 100 100 1 0.05 0.2 false = Ok p /\
    Rabs (price c - 10.4506) < 0.00005 /\
    Rabs (delta c - 0.6368) < 0.00005 /\
    Rabs (price p - 5.5735) < 0.00005 /\
    Rabs (delta p - -0.3632) < 0.00005.
Proof.
  exists (bsm_call 100 100 1 0.05 0.2), (bsm_put 100 100 1 0.05 0.2).
  split; [apply (black_scholes_value 100 100 1 0.05 0.2 true); lra | ].
  split; [apply (black_scholes_value 100 100 1 0.05 0.2 false); lra | ].
  cbn [price delta bsm_call bsm_put].
  rewrite scenario_d1, scenario_d2, !Phi_sym.
  replace (0.05 * 1) with 0.05 by lra.
  pose proof exp_m005_bounds as [he1 he2].
  pose proof Phi_035_bounds as [ha1 ha2].
  pose proof Phi_015_bounds as [hb1 hb2].
  set (E := exp (- (0.05))) in *.
  set (A := Phi 0.35) in *. set (B := Phi 0.15) in *.
  assert (hEB1 : 0.95122942 * 0.55961768 < E * B) by nra.
  assert (hEB2 : E * B < 0.95122943 * 0.5596177) by nra.
  repeat split; apply Rabs_def1; nra.
Qed.

(** C10 -- Strict bounds.  In exact arithmetic, for every
    non-degenerate input the call delta lies strictly between [0] and
    [1], the put delta strictly between [-1] and [0], and gamma and vega
    are strictly positive in both branches. *)
Theorem strict_greek_bounds (S K T r sigma : R) :
  0 < S -> 0 < K -> 0 < T -> 0 < sigma ->
  exists c p : OptionResponse R,
    _black_scholes S K T r sigma true = Ok c /\
    _black_scholes S K T r sigma false = Ok p /\
    0 < delta c < 1 /\ -1 < delta p < 0 /\
    0 < gamma c /\ 0 < vega c /\ 0 < gamma p /\ 0 < vega p.
Proof.
  intros hS hK hT hs.
  exists (bsm_call S K T r sigma), (bsm_put S K T r sigma).
  split; [apply (black_scholes_value S K T r sigma true); assumption | ].
  split; [apply (black_scholes_value S K T r sigma false); assumption | ].
  cbn [delta gamma vega bsm_call bsm_put].
  assert (hrt : 0 < sqrt T) by (apply sqrt_lt_R0, hT).
  pose proof (Phi_bound (bsm_d1 S K T r sigma)) as hb.
  pose proof (Phi_bound (- bsm_d1 S K T r sigma)) as hb'.
  pose proof (phi_pos (bsm_d1 S K T r sigma)) as hp.
  assert (hg : 0 < phi (bsm_d1 S K T r sigma) / (S * sigma * sqrt T)).
  { apply Rdiv_lt_0_compat; [exact hp | ].
    apply Rmult_lt_0_compat; [apply Rmult_lt_0_compat | ]; assumption. }
  assert (hv : 0 < S * phi (bsm_d1 S K T r sigma) * sqrt T / 100).
  { apply Rdiv_lt_0_compat; [ | lra].
    apply Rmult_lt_0_compat; [apply Rmult_lt_0_compat | ]; assumption. }
  repeat split; try assumption; lra.
Qed.

Lemma strict_greek_bounds_witness :
  exists c p : OptionResponse R,
    _black_scholes 100 100 1 0.05 0.2 true = Ok c /\
    _black_scholes 100 100 1 0.05 0.2 false = Ok p /\
    0 < delta c < 1 /\ -1 < delta p < 0 /\
    0 < gamma c /\ 0 < vega c /\ 0 < gamma p /\ 0 < vega p.
Proof. apply (strict_greek_bounds 100 100 1 0.05 0.2); lra. Defined.

(** ** The sensitivities as derivatives of the price *)

Lemma output_value (f : OptionResponse R -> R) (S K T r sigma : R) (c : bool) :
  0 < S -> 0 < K -> 0 < T -> 0 < sigma ->
  output f S K T r sigma c =
  f (if c then bsm_call S K T r sigma else bsm_put S K T r sigma).
Proof.
  intros hS hK hT hs. unfold output.
  rewrite (black_scholes_value S K T r sigma c hS hK hT hs). reflexivity.
Qed.

Lemma dpl_ln (f : R -> R) (x l : R) :
  derivable_pt_lim f x l -> 0 < f x ->
  derivable_pt_lim (fun y => ln (f y)) x (/ f x * l).
Proof.
  intros h hp. apply (dpl_comp ln f); [exact h | apply derivable_pt_lim_ln, hp].
Qed.

Lemma dpl_sqrt (f : R -> R) (x l : R) :
  derivable_pt_lim f x l -> 0 < f x ->
  derivable_pt_lim (fun y => sqrt (f y)) x (/ (2 * sqrt (f x)) * l).
Proof.
  intros h hp. apply (dpl_comp sqrt f); [exact h | apply derivable_pt_lim_sqrt, hp].
Qed.

Lemma dpl_Phi (f : R -> R) (x l : R) :
  derivable_pt_lim f x l ->
  derivable_pt_lim (fun y => Phi (f y)) x (phi (f x) * l).
Proof. intros h. apply (dpl_comp Phi f); [exact h | apply Phi_deriv]. Qed.

Lemma phi_even (x : R) : phi (- x) = phi x.
Proof.
  unfold phi. replace (- (- x) ^ 2 / 2) with (- x ^ 2 / 2) by field.
  reflexivity.
Qed.

Lemma phi_deriv (x : R) : derivable_pt_lim phi x (- x * phi x).
Proof.
  unfold phi. eapply dpl_eq.
  - dpl; [lra | apply Rgt_not_eq, sqrt_lt_R0; pose proof PI_RGT_0; lra].
  - cbv beta. cbn [pred INR pow]. unfold Rsqr.
    assert (h : 0 < sqrt (2 * PI)) by (apply sqrt_lt_R0; pose proof PI_RGT_0; lra).
    field. lra.
Qed.

Section Greeks.

Variables S K T r sigma : R.
Hypothesis hS : 0 < S.
Hypothesis hK : 0 < K.
Hypothesis hT : 0 < T.
Hypothesis hs : 0 < sigma.

Lemma sqrt_T_pos : 0 < sqrt T.
Proof. apply sqrt_lt_R0, hT. Qed.

Lemma bsm_d1_deriv_S :
  derivable_pt_lim (fun s => bsm_d1 s K T r sigma) S (/ (S * (sigma * sqrt T))).
Proof.
  pose proof sqrt_T_pos as hrt.
  unfold bsm_d1. eapply dpl_eq.
  - apply (dpl_div (fun s => ln (s / K) + (r + 0.5 * sigma ^ 2) * T)
             (fun _ => sigma * sqrt T)).
    + apply (dpl_plus (fun s => ln (s / K)) (fun _ => (r + 0.5 * sigma ^ 2) * T)).
      * apply (dpl_ln (fun s => s / K)); [dpl; lra | ].
        apply Rdiv_lt_0_compat; assumption.
      * dpl.
    + dpl.
    + apply Rgt_not_eq, Rmult_lt_0_compat; assumption.
  - cbv beta. unfold Rsqr. field. repeat split; lra.
Qed.

Lemma bsm_d2_deriv_S :
  derivable_pt_lim (fun s => bsm_d2 s K T r sigma) S (/ (S * (sigma * sqrt T))).
Proof.
  unfold bsm_d2. eapply dpl_eq.
  - apply (dpl_minus (fun s => bsm_d1 s K T r sigma) (fun _ => sigma * sqrt T));
      [apply bsm_d1_deriv_S | dpl].
  - ring.
Qed.

Lemma call_price_deriv_S :
  derivable_pt_lim (fun s => call_price s K T r sigma) S (Phi (bsm_d1 S K T r sigma)).
Proof.
  unfold call_price, bsm_call. cbn [price].
  eapply dpl_eq.
  - apply (dpl_minus (fun s => s * Phi (bsm_d1 s K T r sigma))
             (fun s => K * exp (- (r * T)) * Phi (bsm_d2 s K T r sigma))).
    + apply (dpl_mult (fun s => s) (fun s => Phi (bsm_d1 s K T r sigma))); [dpl | ].
      apply dpl_Phi, bsm_d1_deriv_S.
    + apply (dpl_mult (fun _ => K * exp (- (r * T)))
               (fun s => Phi (bsm_d2 s K T r sigma))); [dpl | ].
      apply dpl_Phi, bsm_d2_deriv_S.
  - cbv beta. pose proof (phi_d1_d2 S K T r hS hK hT sigma hs) as e.
    set (p1 := phi (bsm_d1 S K T r sigma)) in *.
    set (p2 := phi (bsm_d2 S K T r sigma)) in *.
    set (q := / (S * (sigma * sqrt T))).
    transitivity (Phi (bsm_d1 S K T r sigma) + (S * p1 - K * exp (- (r * T)) * p2) * q);
      [ring | ].
    rewrite e. ring.
Qed.

Lemma put_price_deriv_S :
  derivable_pt_lim (fun s => put_price s K T r sigma) S
    (- Phi (- bsm_d1 S K T r sigma)).
Proof.
  apply derivable_pt_lim_ext with
    (f := fun s => call_price s K T r sigma - s + K * exp (- (r * T))).
  { intros s. symmetry. apply put_call_price. }
  eapply dpl_eq.
  - apply (dpl_plus (fun s => call_price s K T r sigma - s)
             (fun _ => K * exp (- (r * T)))); [ | dpl].
    apply (dpl_minus (fun s => call_price s K T r sigma) (fun s => s));
      [apply call_price_deriv_S | dpl].
  - rewrite Phi_sym. ring.
Qed.

Lemma call_delta_deriv_S :
  derivable_pt_lim (fun s => delta (bsm_call s K T r sigma)) S
    (gamma (bsm_call S K T r sigma)).
Proof.
  pose proof sqrt_T_pos as hrt.
  cbn [delta gamma bsm_call]. eapply dpl_eq.
  - apply dpl_Phi, bsm_d1_deriv_S.
  - cbv beta. field. repeat split; lra.
Qed.

Lemma put_delta_deriv_S :
  derivable_pt_lim (fun s => delta (bsm_put s K T r sigma)) S
    (gamma (bsm_put S K T r sigma)).
Proof.
  pose proof sqrt_T_pos as hrt.
  cbn [delta gamma bsm_put].
  apply derivable_pt_lim_ext with (f := fun s => Phi (bsm_d1 s K T r sigma) - 1).
  { intros s. rewrite Phi_sym. ring. }
  eapply dpl_eq.
  - apply (dpl_minus (fun s => Phi (bsm_d1 s K T r sigma)) (fun _ => 1)); [ | dpl].
    apply dpl_Phi, bsm_d1_deriv_S.
  - cbv beta. field. repeat split; lra.
Qed.

(** With respect to the rate. *)

Lemma bsm_d1_deriv_r :
  derivable_pt_lim (fun q => bsm_d1 S K T q sigma) r (T / (sigma * sqrt T)).
Proof.
  pose proof sqrt_T_pos as hrt.
  unfold bsm_d1. eapply dpl_eq.
  - dpl. apply Rgt_not_eq, Rmult_lt_0_compat; assumption.
  - cbv beta. unfold Rsqr. field. repeat split; lra.
Qed.

Lemma bsm_d2_deriv_r :
  derivable_pt_lim (fun q => bsm_d2 S K T q sigma) r (T / (sigma * sqrt T)).
Proof.
  unfold bsm_d2. eapply dpl_eq.
  - apply (dpl_minus (fun q => bsm_d1 S K T q sigma) (fun _ => sigma * sqrt T));
      [apply bsm_d1_deriv_r | dpl].
  - ring.
Qed.

Lemma call_price_deriv_r :
  derivable_pt_lim (fun q => call_price S K T q sigma) r
    (K * T * exp (- (r * T)) * Phi (bsm_d2 S K T r sigma)).
Proof.
  unfold call_price, bsm_call. cbn [price].
  eapply dpl_eq.
  - apply (dpl_minus (fun q => S * Phi (bsm_d1 S K T q sigma))
             (fun q => K * exp (- (q * T)) * Phi (bsm_d2 S K T q sigma))).
    + apply (dpl_mult (fun _ => S) (fun q => Phi (bsm_d1 S K T q sigma))); [dpl | ].
      apply dpl_Phi, bsm_d1_deriv_r.
    + apply (dpl_mult (fun q => K * exp (- (q * T)))
               (fun q => Phi (bsm_d2 S K T q sigma))); [dpl | ].
      apply dpl_Phi, bsm_d2_deriv_r.
  - cbv beta. pose proof (phi_d1_d2 S K T r hS hK hT sigma hs) as e.
    set (p1 := phi (bsm_d1 S K T r sigma)) in *.
    set (p2 := phi (bsm_d2 S K T r sigma)) in *.
    set (q := T / (sigma * sqrt T)).
    set (E := exp (- (r * T))) in *.
    transitivity (K * T * E * Phi (bsm_d2 S K T r sigma)
                  + (S * p1 - K * E * p2) * q); [ring | ].
    rewrite e. ring.
Qed.

Lemma put_price_deriv_r :
  derivable_pt_lim (fun q => put_price S K T q sigma) r
    (- (K * T * exp (- (r * T)) * Phi (- bsm_d2 S K T r sigma))).
Proof.
  apply derivable_pt_lim_ext with
    (f := fun q => call_price S K T q sigma - S + K * exp (- (q * T))).
  { intros q. symmetry. apply put_call_price. }
  eapply dpl_eq.
  - apply (dpl_plus (fun q => call_price S K T q sigma - S)
             (fun q => K * exp (- (q * T)))); [ | dpl].
    apply (dpl_minus (fun q => call_price S K T q sigma) (fun _ => S));
      [apply call_price_deriv_r | dpl].
  - cbv beta. rewrite Phi_sym. ring.
Qed.

(** With respect to the time to expiry. *)

Lemma bsm_d1_deriv_T :
  derivable_pt_lim (fun t => bsm_d1 S K t r sigma) T
    (((r + 0.5 * sigma ^ 2) * (sigma * sqrt T)
      - sigma * / (2 * sqrt T) * (ln (S / K) + (r + 0.5 * sigma ^ 2) * T))
     / (sigma * sqrt T)²).
Proof.
  pose proof sqrt_T_pos as hrt.
  unfold bsm_d1. eapply dpl_eq.
  - apply (dpl_div (fun t => ln (S / K) + (r + 0.5 * sigma ^ 2) * t)
             (fun t => sigma * sqrt t)).
    + dpl.
    + apply (dpl_mult (fun _ => sigma) (fun t => sqrt t)); [dpl | ].
      apply (dpl_sqrt (fun t => t)); [dpl | exact hT].
    + apply Rgt_not_eq, Rmult_lt_0_compat; assumption.
  - cbv beta. unfold Rsqr. field. repeat split; lra.
Qed.

Lemma bsm_d2_deriv_T :
  derivable_pt_lim (fun t => bsm_d2 S K t r sigma) T
    (((r + 0.5 * sigma ^ 2) * (sigma * sqrt T)
      - sigma * / (2 * sqrt T) * (ln (S / K) + (r + 0.5 * sigma ^ 2) * T))
     / (sigma * sqrt T)² - sigma / (2 * sqrt T)).
Proof.
  pose proof sqrt_T_pos as hrt.
  unfold bsm_d2. eapply dpl_eq.
  - apply (dpl_minus (fun t => bsm_d1 S K t r sigma) (fun t => sigma * sqrt t));
      [apply bsm_d1_deriv_T | ].
    apply (dpl_mult (fun _ => sigma) (fun t => sqrt t)); [dpl | ].
    apply (dpl_sqrt (fun t => t)); [dpl | exact hT].
  - cbv beta. unfold Rsqr. field. repeat split; lra.
Qed.

Lemma call_price_deriv_T :
  derivable_pt_lim (fun t => call_price S K t r sigma) T
    (S * phi (bsm_d1 S K T r sigma) * sigma / (2 * sqrt T)
     + r * K * exp (- (r * T)) * Phi (bsm_d2 S K T r sigma)).
Proof.
  pose proof sqrt_T_pos as hrt.
  unfold call_price, bsm_call. cbn [price].
  eapply dpl_eq.
  - apply (dpl_minus (fun t => S * Phi (bsm_d1 S K t r sigma))
             (fun t => K * exp (- (r * t)) * Phi (bsm_d2 S K t r sigma))).
    + apply (dpl_mult (fun _ => S) (fun t => Phi (bsm_d1 S K t r sigma))); [dpl | ].
      apply dpl_Phi, bsm_d1_deriv_T.
    + apply (dpl_mult (fun t => K * exp (- (r * t)))
               (fun t => Phi (bsm_d2 S K t r sigma))); [dpl | ].
      apply dpl_Phi, bsm_d2_deriv_T.
  - cbv beta. pose proof (phi_d1_d2 S K T r hS hK hT sigma hs) as e.
    set (p1 := phi (bsm_d1 S K T r sigma)) in *.
    set (p2 := phi (bsm_d2 S K T r sigma)) in *.
    set (D := ((r + 0.5 * sigma ^ 2) * (sigma * sqrt T)
      - sigma * / (2 * sqrt T) * (ln (S / K) + (r + 0.5 * sigma ^ 2) * T))
     / (sigma * sqrt T)²).
    set (E := exp (- (r * T))) in *.
    transitivity (r * K * E * Phi (bsm_d2 S K T r sigma)
                  + (S * p1 - K * E * p2) * D
                  + K * E * p2 * (sigma / (2 * sqrt T))); [ring | ].
    rewrite <- e. clearbody D. field. lra.
Qed.

Lemma put_price_deriv_T :
  derivable_pt_lim (fun t => put_price S K t r sigma) T
    (S * phi (bsm_d1 S K T r sigma) * sigma / (2 * sqrt T)
     - r * K * exp (- (r * T)) * Phi (- bsm_d2 S K T r sigma)).
Proof.
  apply derivable_pt_lim_ext with
    (f := fun t => call_price S K t r sigma - S + K * exp (- (r * t))).
  { intros t. symmetry. apply put_call_price. }
  eapply dpl_eq.
  - apply (dpl_plus (fun t => call_price S K t r sigma - S)
             (fun t => K * exp (- (r * t)))); [ | dpl].
    apply (dpl_minus (fun t => call_price S K t r sigma) (fun _ => S));
      [apply call_price_deriv_T | dpl].
  - cbv beta. rewrite Phi_sym. ring.
Qed.

End Greeks.

Lemma dpl_on_pos (F G : R -> R) (x l : R) :
  0 < x -> (forall y, 0 < y -> F y = G y) ->
  derivable_pt_lim G x l -> derivable_pt_lim F x l.
Proof.
  intros hx e h.
  apply derivable_pt_lim_locally_ext with (f := G) (a := x / 2) (b := 2 * x).
  - lra.
  - intros y hy. symmetry. apply e. lra.
  - exact h.
Qed.

(** X1 -- Delta is the derivative of the price in the spot.  In exact
    arithmetic, for positive [K], [T], [sigma], at every positive [S]
    and for either flag, the price returned by the pricer is
    differentiable in [S] and its derivative is the returned delta. *)
Theorem delta_is_price_derivative (S K T r sigma : R) (is_call : bool) :
  0 < S -> 0 < K -> 0 < T -> 0 < sigma ->
  derivable_pt_lim (fun s => output price s K T r sigma is_call) S
    (output delta S K T r sigma is_call).
Proof.
  intros hS hK hT hs. rewrite output_value by assumption.
  apply dpl_on_pos with
    (G := fun s => price (if is_call then bsm_call s K T r sigma
                          else bsm_put s K T r sigma)); [exact hS | | ].
  - intros y hy. apply output_value; assumption.
  - destruct is_call.
    + apply call_price_deriv_S; assumption.
    + apply put_price_deriv_S; assumption.
Qed.

Lemma delta_is_price_derivative_witness :
  derivable_pt_lim (fun s => output price s 100 1 0.05 0.2 true) 100
    (output delta 100 100 1 0.05 0.2 true).
Proof. apply (delta_is_price_derivative 100 100 1 0.05 0.2 true); lra. Defined.

(** X2 -- Gamma is the derivative of delta in the spot.  On the same
    inputs the returned delta is differentiable in [S] and its
    derivative is the returned gamma, for the call and for the put. *)
Theorem gamma_is_delta_derivative (S K T r sigma : R) (is_call : bool) :
  0 < S -> 0 < K -> 0 < T -> 0 < sigma ->
  derivable_pt_lim (fun s => output delta s K T r sigma is_call) S
    (output gamma S K T r sigma is_call).
Proof.
  intros hS hK hT hs. rewrite output_value by assumption.
  apply dpl_on_pos with
    (G := fun s => delta (if is_call then bsm_call s K T r sigma
                          else bsm_put s K T r sigma)); [exact hS | | ].
  - intros y hy. apply output_value; assumption.
  - destruct is_call.
    + apply call_delta_deriv_S; assumption.
    + apply put_delta_deriv_S; assumption.
Qed.

Lemma gamma_is_delta_derivative_witness :
  derivable_pt_lim (fun s => output delta s 100 1 0.05 0.2 false) 100
    (output gamma 100 100 1 0.05 0.2 false).
Proof. apply (gamma_is_delta_derivative 100 100 1 0.05 0.2 false); lra. Defined.

(** X3 -- Vega is the derivative of the price in the volatility, per
    percentage point: the derivative of the returned price in [sigma]
    is a hundred times the returned vega, for either flag. *)
Theorem vega_is_price_derivative (S K T r sigma : R) (is_call : bool) :
  0 < S -> 0 < K -> 0 < T -> 0 < sigma ->
  derivable_pt_lim (fun v => output price S K T r v is_call) sigma
    (100 * output vega S K T r sigma is_call).
Proof.
  intros hS hK hT hs. rewrite output_value by assumption.
  assert (hrt : 0 < sqrt T) by (apply sqrt_lt_R0, hT).
  apply dpl_on_pos with
    (G := fun v => price (if is_call then bsm_call S K T r v
                          else bsm_put S K T r v)); [exact hs | | ].
  - intros y hy. apply output_value; assumption.
  - destruct is_call.
    + eapply dpl_eq; [apply (call_price_deriv S K T r hS hK hT sigma hs) | ].
      cbn [vega bsm_call]. field.
    + apply derivable_pt_lim_ext with
        (f := fun v => call_price S K T r v - S + K * exp (- (r * T))).
      { intros v. symmetry. apply put_call_price. }
      eapply dpl_eq.
      * apply (dpl_plus (fun v => call_price S K T r v - S)
                 (fun _ => K * exp (- (r * T)))); [ | dpl].
        apply (dpl_minus (call_price S K T r) (fun _ => S)); [ | dpl].
        apply (call_price_deriv S K T r hS hK hT sigma hs).
      * cbn [vega bsm_put]. field.
Qed.

Lemma vega_is_price_derivative_witness :
  derivable_pt_lim (fun v => output price 100 100 1 0.05 v true) 0.2
    (100 * output vega 100 100 1 0.05 0.2 true).
Proof. apply (vega_is_price_derivative 100 100 1 0.05 0.2 true); lra. Defined.

(** X4 -- Rho is the derivative of the price in the rate, per
    percentage point: the derivative of the returned price in [r] is a
    hundred times the returned rho, for either flag and every [r]. *)
Theorem rho_is_price_derivative (S K T r sigma : R) (is_call : bool) :
  0 < S -> 0 < K -> 0 < T -> 0 < sigma ->
  derivable_pt_lim (fun q => output price S K T q sigma is_call) r
    (100 * output rho S K T r sigma is_call).
Proof.
  intros hS hK hT hs. rewrite output_value by assumption.
  apply derivable_pt_lim_ext with
    (f := fun q => price (if is_call then bsm_call S K T q sigma
                          else bsm_put S K T q sigma)).
  { intros q. symmetry. apply output_value; assumption. }
  destruct is_call.
  - eapply dpl_eq; [apply call_price_deriv_r; assumption | ].
    cbn [rho bsm_call]. field.
  - eapply dpl_eq; [apply put_price_deriv_r; assumption | ].
    cbn [rho bsm_put]. field.
Qed.

Lemma rho_is_price_derivative_witness :
  derivable_pt_lim (fun q => output price 100 100 1 q 0.2 false) 0.05
    (100 * output rho 100 100 1 0.05 0.2 false).
Proof. apply (rho_is_price_derivative 100 100 1 0.05 0.2 false); lra. Defined.

(** X5 -- Theta is the decay of the price per day: the derivative of
    the returned price in the time to expiry [T] is minus 365 times the
    returned theta, for either flag. *)
Theorem theta_is_price_derivative (S K T r sigma : R) (is_call : bool) :
  0 < S -> 0 < K -> 0 < T -> 0 < sigma ->
  derivable_pt_lim (fun t => output price S K t r sigma is_call) T
    (- 365 * output theta S K T r sigma is_call).
Proof.
  intros hS hK hT hs. rewrite output_value by assumption.
  assert (hrt : 0 < sqrt T) by (apply sqrt_lt_R0, hT).
  apply dpl_on_pos with
    (G := fun t => price (if is_call then bsm_call S K t r sigma
                          else bsm_put S K t r sigma)); [exact hT | | ].
  - intros y hy. apply output_value; assumption.
  - destruct is_call.
    + eapply dpl_eq; [apply call_price_deriv_T; assumption | ].
      cbn [theta bsm_call]. field. lra.
    + eapply dpl_eq; [apply put_price_deriv_T; assumption | ].
      cbn [theta bsm_put]. field. lra.
Qed.

Lemma theta_is_price_derivative_witness :
  derivable_pt_lim (fun t => output price 100 100 t 0.05 0.2 true) 1
    (- 365 * output theta 100 100 1 0.05 0.2 true).
Proof. apply (theta_is_price_derivative 100 100 1 0.05 0.2 true); lra. Defined.

(** ** Bounds and scaling of the price *)

Section Bounds.

Variables K T r sigma : R.
Hypothesis hK : 0 < K.
Hypothesis hT : 0 < T.
Hypothesis hs : 0 < sigma.

Lemma discount_pos : 0 < K * exp (- (r * T)).
Proof. apply Rmult_lt_0_compat; [exact hK | apply exp_pos]. Qed.

Lemma call_price_lt_spot (S : R) : 0 < S -> call_price S K T r sigma < S.
Proof.
  intros hS. unfold call_price, bsm_call. cbn [price].
  pose proof (Phi_bound (bsm_d1 S K T r sigma)) as [_ h1].
  pose proof (Phi_bound (bsm_d2 S K T r sigma)) as [h2 _].
  pose proof discount_pos as hd.
  assert (S * Phi (bsm_d1 S K T r sigma) < S * 1)
    by (apply Rmult_lt_compat_l; assumption).
  assert (0 < K * exp (- (r * T)) * Phi (bsm_d2 S K T r sigma))
    by (apply Rmult_lt_0_compat; assumption).
  lra.
Qed.

Lemma call_price_incr_spot (s1 s2 : R) :
  0 < s1 -> s1 < s2 ->
  call_price s1 K T r sigma < call_price s2 K T r sigma.
Proof.
  intros h1 h12.
  apply (deriv_pos_lt (fun s => call_price s K T r sigma)
           (fun s => Phi (bsm_d1 s K T r sigma)) s1 s2 h12).
  - intros c hc. apply call_price_deriv_S; try assumption. lra.
  - intros c hc. apply Phi_bound.
Qed.

(** Far enough below the strike, [Phi d2] is as small as wanted. *)
Lemma small_Phi_d2 (S eps : R) :
  0 < S -> 0 < eps ->
  exists s, 0 < s < S /\ Phi (bsm_d2 s K T r sigma) < eps.
Proof.
  intros hS heps.
  assert (hrt : 0 < sqrt T) by (apply sqrt_lt_R0, hT).
  assert (hv : 0 < sigma * sqrt T) by (apply Rmult_lt_0_compat; assumption).
  destruct (Phi_lim_left eps heps) as [M hM].
  set (b := (r + 0.5 * sigma ^ 2) * T).
  set (L := (M + sigma * sqrt T) * (sigma * sqrt T) - b).
  set (l := Rmin L (ln (S / K) - 1)).
  exists (K * exp l).
  assert (hl1 : l <= L) by apply Rmin_l.
  assert (hl2 : l <= ln (S / K) - 1) by apply Rmin_r.
  assert (hq : 0 < S / K) by (apply Rdiv_lt_0_compat; assumption).
  split; [split | ].
  - apply Rmult_lt_0_compat; [exact hK | apply exp_pos].
  - assert (exp l < S / K).
    { rewrite <- (exp_ln (S / K) hq). apply exp_increasing. lra. }
    replace S with (K * (S / K)) by (field; lra).
    apply Rmult_lt_compat_l; assumption.
  - apply hM. unfold bsm_d2, bsm_d1.
    replace (K * exp l / K) with (exp l) by (field; lra).
    rewrite ln_exp. fold b.
    apply Rmult_le_reg_r with (sigma * sqrt T); [exact hv | ].
    replace (((l + b) / (sigma * sqrt T) - sigma * sqrt T) * (sigma * sqrt T))
      with (l + b - sigma * sqrt T * (sigma * sqrt T)) by (field; lra).
    unfold L in hl1. lra.
Qed.

Lemma call_price_nonneg (S : R) : 0 < S -> 0 <= call_price S K T r sigma.
Proof.
  intros hS. pose proof discount_pos as hd.
  destruct (Rle_dec 0 (call_price S K T r sigma)) as [h | h]; [exact h | exfalso].
  apply Rnot_le_lt in h.
  set (C := call_price S K T r sigma) in *.
  assert (heps : 0 < - C / (K * exp (- (r * T)))) by (apply Rdiv_lt_0_compat; lra).
  destruct (small_Phi_d2 S _ hS heps) as (s & [hs1 hs2] & hphi).
  pose proof (call_price_incr_spot s S hs1 hs2) as hinc. fold C in hinc.
  unfold call_price, bsm_call in hinc. cbn [price] in hinc.
  pose proof (Phi_bound (bsm_d1 s K T r sigma)) as [hp1 _].
  assert (hpos : 0 < s * Phi (bsm_d1 s K T r sigma))
    by (apply Rmult_lt_0_compat; assumption).
  assert (hlt : K * exp (- (r * T)) * Phi (bsm_d2 s K T r sigma) <
                K * exp (- (r * T)) * (- C / (K * exp (- (r * T)))))
    by (apply Rmult_lt_compat_l; assumption).
  replace (K * exp (- (r * T)) * (- C / (K * exp (- (r * T))))) with (- C)
    in hlt by (pose proof (exp_pos (- (r * T))); field; split; lra).
  lra.
Qed.

Lemma call_price_pos (S : R) : 0 < S -> 0 < call_price S K T r sigma.
Proof.
  intros hS.
  apply Rle_lt_trans with (call_price (S / 2) K T r sigma).
  - apply call_price_nonneg. lra.
  - apply call_price_incr_spot; lra.
Qed.

End Bounds.

(** A put is a call with spot and strike exchanged. *)
Lemma put_call_symmetry (S K T r sigma : R) :
  0 < S -> 0 < K -> 0 < T -> 0 < sigma ->
  put_price S K T r sigma =
  call_price (K * exp (- (r * T))) (S * exp (r * T)) T r sigma.
Proof.
  intros hS hK hT hs.
  assert (hrt : 0 < sqrt T) by (apply sqrt_lt_R0, hT).
  assert (el : ln (K * exp (- (r * T)) / (S * exp (r * T))) =
               - ln (S / K) - 2 * (r * T)).
  { unfold Rdiv. rewrite !ln_mult, !ln_Rinv, ln_mult, !ln_exp;
      try assumption; try apply exp_pos;
      try (apply Rinv_0_lt_compat; try assumption);
      try (apply Rmult_lt_0_compat; try assumption; apply exp_pos).
    ring. }
  assert (e1 : bsm_d1 (K * exp (- (r * T))) (S * exp (r * T)) T r sigma =
               - bsm_d2 S K T r sigma).
  { unfold bsm_d2, bsm_d1. rewrite el.
    pose proof (sqrt_sqrt T (Rlt_le _ _ hT)) as e.
    set (a := ln (S / K)). clearbody a.
    set (s := sqrt T) in *. clearbody s.
    rewrite <- e. replace 0.5 with (/ 2) by lra. field. lra. }
  assert (e2 : bsm_d2 (K * exp (- (r * T))) (S * exp (r * T)) T r sigma =
               - bsm_d1 S K T r sigma).
  { unfold bsm_d2 at 1. rewrite e1. unfold bsm_d2. ring. }
  unfold put_price, call_price, bsm_put, bsm_call. cbn [price].
  fold (bsm_d2 (K * exp (- (r * T))) (S * exp (r * T)) T r sigma).
  rewrite e1, e2.
  replace (S * exp (r * T) * exp (- (r * T))) with S; [reflexivity | ].
  rewrite Rmult_assoc, <- exp_plus.
  replace (r * T + - (r * T)) with 0 by ring. rewrite exp_0. ring.
Qed.

Lemma put_price_pos (S K T r sigma : R) :
  0 < S -> 0 < K -> 0 < T -> 0 < sigma -> 0 < put_price S K T r sigma.
Proof.
  intros hS hK hT hs. rewrite put_call_symmetry by assumption.
  apply call_price_pos; try assumption.
  - apply Rmult_lt_0_compat; [exact hS | apply exp_pos].
  - apply Rmult_lt_0_compat; [exact hK | apply exp_pos].
Qed.

(** X6 -- No-arbitrage bounds, in exact arithmetic.  On real numbers,
    for positive inputs, the call price the pricer returns lies strictly
    between [max(0, S - K e^(-rT))] and [S], and the put price strictly
    between [max(0, K e^(-rT) - S)] and [K e^(-rT)].  The bounds are
    those of the formulas; on doubles rounding can reach and cross them
    (a put price of [0.0] or of [-2.7e-16] for a small [sigma]). *)
Theorem price_bounds (S K T r sigma : R) :
  0 < S -> 0 < K -> 0 < T -> 0 < sigma ->
  Rmax 0 (S - K * exp (- (r * T))) < output price S K T r sigma true < S /\
  Rmax 0 (K * exp (- (r * T)) - S) < output price S K T r sigma false
    < K * exp (- (r * T)).
Proof.
  intros hS hK hT hs. rewrite !output_value by assumption.
  fold (call_price S K T r sigma). fold (put_price S K T r sigma).
  pose proof (call_price_pos K T r sigma hK hT hs S hS) as hc.
  pose proof (put_price_pos S K T r sigma hS hK hT hs) as hp.
  pose proof (call_price_lt_spot K T r sigma hK S hS) as hcs.
  pose proof (put_call_price S K T r sigma) as e.
  repeat split; try apply Rmax_lub_lt; lra.
Qed.

Lemma price_bounds_witness :
  Rmax 0 (100 - 100 * exp (- (0.05 * 1))) < output price 100 100 1 0.05 0.2 true
    < 100 /\
  Rmax 0 (100 * exp (- (0.05 * 1)) - 100) < output price 100 100 1 0.05 0.2 false
    < 100 * exp (- (0.05 * 1)).
Proof. apply (price_bounds 100 100 1 0.05 0.2); lra. Defined.

(** X7 -- Homogeneity, in exact arithmetic.  On real numbers, scaling
    the spot and the strike by the same positive factor scales the
    price the pricer returns by that factor, leaves the delta unchanged
    and divides the gamma by the factor.  On doubles this holds up to
    rounding only, unless the factor is a power of two. *)
Theorem price_homogeneous (S K T r sigma lam : R) (is_call : bool) :
  0 < S -> 0 < K -> 0 < T -> 0 < sigma -> 0 < lam ->
  output price (lam * S) (lam * K) T r sigma is_call =
    lam * output price S K T r sigma is_call /\
  output delta (lam * S) (lam * K) T r sigma is_call =
    output delta S K T r sigma is_call /\
  output gamma (lam * S) (lam * K) T r sigma is_call =
    output gamma S K T r sigma is_call / lam.
Proof.
  intros hS hK hT hs hl.
  assert (hrt : 0 < sqrt T) by (apply sqrt_lt_R0, hT).
  assert (hlS : 0 < lam * S) by (apply Rmult_lt_0_compat; assumption).
  assert (hlK : 0 < lam * K) by (apply Rmult_lt_0_compat; assumption).
  rewrite !output_value by assumption.
  assert (e1 : bsm_d1 (lam * S) (lam * K) T r sigma = bsm_d1 S K T r sigma).
  { unfold bsm_d1. replace (lam * S / (lam * K)) with (S / K) by (field; lra).
    reflexivity. }
  assert (e2 : bsm_d2 (lam * S) (lam * K) T r sigma = bsm_d2 S K T r sigma).
  { unfold bsm_d2. rewrite e1. reflexivity. }
  destruct is_call; cbn [price delta gamma bsm_call bsm_put];
    rewrite e1, ?e2; repeat split; try ring; field; repeat split; lra.
Qed.

Lemma price_homogeneous_witness :
  output price (3 * 100) (3 * 100) 1 0.05 0.2 true =
    3 * output price 100 100 1 0.05 0.2 true /\
  output delta (3 * 100) (3 * 100) 1 0.05 0.2 true =
    output delta 100 100 1 0.05 0.2 true /\
  output gamma (3 * 100) (3 * 100) 1 0.05 0.2 true =
    output gamma 100 100 1 0.05 0.2 true / 3.
Proof. apply (price_homogeneous 100 100 1 0.05 0.2 3 true); lra. Defined.

(** ** [predict] *)

Section PredictExact.

Import ExactNum.

Variable fmt : R -> string.

Local Abbreviation predictR := (@predict R RealFloat (RealNum fmt)).

(** The weighted score of a request, before it is clamped. *)
Local Abbreviation score req :=
  (0.35 * (p_npm req / 20) + 0.4 * (p_subscription req / 2)
   + 0.25 * p_sentiment req).

Lemma py_max_Rmax (a b : R) : @py_max R (RealNum fmt) a b = Rmax a b.
Proof.
  unfold py_max, Rmax. cbn [flt RealNum]. unfold Rltb.
  destruct (Rlt_dec a b), (Rle_dec a b); try reflexivity; lra.
Qed.

Lemma py_min_Rmin (a b : R) : @py_min R (RealNum fmt) a b = Rmin a b.
Proof.
  unfold py_min, Rmin. cbn [flt RealNum]. unfold Rltb.
  destruct (Rlt_dec b a), (Rle_dec a b); try reflexivity; lra.
Qed.

Lemma predict_value (req : PredictRequest R) :
  predictR req =
  Ok {| probability := Rmax 0 (Rmin 1 (score req));
        drivers :=
          ("NPM% contribution: " ++ fmt (p_npm req / 20 * 35) ++ " pts")%string
          :: ("Subscription intensity: "
                ++ fmt (p_subscription req / 2 * 40) ++ " pts")%string
          :: ("Social sentiment: "
                ++ fmt (p_sentiment req * 25) ++ " pts")%string
          :: nil |}.
Proof.
  unfold predict.
  cbn [of_int dec RealNum format_1f].
  rewrite !fdiv_ok by lra. cbn [bind].
  rewrite py_max_Rmax, py_min_Rmin.
  cbn [fadd fmul RealFloat].
  do 2 f_equal. f_equal; [lra | ]. f_equal; [lra | ].
  do 3 f_equal; lra.
Qed.

(** X9 -- The probability is the clamped score.  In exact arithmetic
    [predict] returns for every request, the probability lies in
    [0, 1], it is the weighted score when that lies in [0, 1], and it
    is 0 below and 1 above. *)
Theorem predict_clamped (req : PredictRequest R) :
  exists resp,
    predictR req = Ok resp /\
    0 <= probability resp <= 1 /\
    (0 <= score req <= 1 -> probability resp = score req) /\
    (score req <= 0 -> probability resp = 0) /\
    (1 <= score req -> probability resp = 1).
Proof.
  eexists. split; [apply predict_value | ].
  cbn [probability].
  set (s := score req).
  unfold Rmax, Rmin.
  destruct (Rle_dec 1 s), (Rle_dec 0 1), (Rle_dec 0 s);
    repeat split; intros; try lra.
Qed.

(** X10 -- The probability is monotone.  Raising any of the three
    inputs of a request never lowers the returned probability. *)
Theorem predict_monotone (req req' : PredictRequest R) :
  p_npm req <= p_npm req' ->
  p_subscription req <= p_subscription req' ->
  p_sentiment req <= p_sentiment req' ->
  exists resp resp',
    predictR req = Ok resp /\ predictR req' = Ok resp' /\
    probability resp <= probability resp'.
Proof.
  intros h1 h2 h3. do 2 eexists.
  split; [apply predict_value | ]. split; [apply predict_value | ].
  cbn [probability].
  apply Rle_max_compat_l, Rle_min_compat_l. lra.
Qed.

(** X11 -- The points of the drivers add up to the score, in exact
    arithmetic.  On real numbers the three driver lines carry, in this
    order, the formatted values of [npm / 20 * 35],
    [subscription / 2 * 40] and [sentiment * 25], whatever the
    formatting is; these three numbers add up to a hundred times the
    unclamped score, hence to a hundred times the returned probability
    whenever the score lies in [0, 1].  On doubles the two sides can
    differ in the last digit. *)
Theorem predict_points (req : PredictRequest R) :
  exists resp,
    predictR req = Ok resp /\
    drivers resp
    = ("NPM% contribution: " ++ fmt (p_npm req / 20 * 35) ++ " pts")%string
      :: ("Subscription intensity: "
            ++ fmt (p_subscription req / 2 * 40) ++ " pts")%string
      :: ("Social sentiment: "
            ++ fmt (p_sentiment req * 25) ++ " pts")%string :: nil /\
    p_npm req / 20 * 35 + p_subscription req / 2 * 40 + p_sentiment req * 25
    = 100 * score req /\
    (0 <= score req <= 1 ->
     p_npm req / 20 * 35 + p_subscription req / 2 * 40 + p_sentiment req * 25
     = 100 * probability resp).
Proof.
  eexists. split; [apply predict_value | ].
  cbn [drivers probability]. split; [reflexivity | ].
  split; [lra | ].
  intros hs. unfold Rmax, Rmin.
  destruct (Rle_dec 1 (score req)), (Rle_dec 0 1), (Rle_dec 0 (score req));
    lra.
Qed.

End PredictExact.

Lemma predict_monotone_witness :
  exists resp resp',
    @predict R RealFloat (ExactNum.RealNum (fun _ => EmptyString))
      {| p_npm := 10; p_subscription := 1; p_sentiment := 0.5 |} = Ok resp /\
    @predict R RealFloat (ExactNum.RealNum (fun _ => EmptyString))
      {| p_npm := 12; p_subscription := 1; p_sentiment := 0.5 |} = Ok resp' /\
    probability resp <= probability resp'.
Proof.
  apply (predict_monotone (fun _ => EmptyString)
           {| p_npm := 10; p_subscription := 1; p_sentiment := 0.5 |}
           {| p_npm := 12; p_subscription := 1; p_sentiment := 0.5 |});
    cbn [p_npm p_subscription p_sentiment]; lra.
Defined.

(** ** [valuation] *)

Section ValuationKeys.

Import ListNotations.

Lemma getitem_known k :
  known k -> exists v, getitem priceByMultiple k = Some v /\ (88 <= v <= 102)%Z.
Proof.
  unfold known. cbn [priceByMultiple map fst In].
  intros [<- | [<- | [<- | []]]]; eexists; (split; [reflexivity | lia]).
Qed.

Lemma getitem_unknown k :
  ~ known k -> getitem priceByMultiple k = None.
Proof.
  unfold known, priceByMultiple. cbn [map fst In getitem]. intros h.
  destruct (String.eqb_spec "evEbitda" k); [tauto | ].
  destruct (String.eqb_spec "pe" k); [tauto | ].
  destruct (String.eqb_spec "pb" k); [tauto | ].
  reflexivity.
Qed.

Lemma known_dec k : {known k} + {~ known k}.
Proof. apply in_dec, string_dec. Qed.

Lemma sum_prices_known active :
  Forall known active ->
  forall acc, exists s,
    sum_prices acc active = Returns s /\
    (acc + 88 * Z.of_nat (length active) <= s
     <= acc + 102 * Z.of_nat (length active))%Z.
Proof.
  induction 1 as [ | k rest hk _ ih]; intros acc.
  - exists acc. cbn [sum_prices length]. split; [reflexivity | lia].
  - destruct (getitem_known k hk) as [v [hv hb]].
    destruct (ih (acc + v)%Z) as [s [hs hsb]].
    exists s. cbn [sum_prices]. rewrite hv. split; [exact hs | ].
    cbn [length]. lia.
Qed.

Lemma sum_prices_unknown active :
  ~ Forall known active ->
  forall acc, exists k pre post,
    active = pre ++ k :: post /\ Forall known pre /\ ~ known k /\
    sum_prices acc active = Raises (KeyError k).
Proof.
  induction active as [ | k rest ih]; intros h acc.
  - destruct h. constructor.
  - destruct (known_dec k) as [hk | hk].
    + destruct (getitem_known k hk) as [v [hv _]].
      destruct (ih (fun hr => h (Forall_cons k hk hr)) (acc + v)%Z)
        as [k' [pre [post [e [hpre [hk' hs]]]]]].
      exists k', (k :: pre), post. subst rest.
      repeat split; auto. cbn [sum_prices]. rewrite hv. exact hs.
    + exists k, [], rest. repeat split; auto.
      cbn [sum_prices]. rewrite (getitem_unknown k hk). reflexivity.
Qed.

Lemma sum_prices_perm l l' :
  Permutation l l' ->
  forall acc s, sum_prices acc l = Returns s -> sum_prices acc l' = Returns s.
Proof.
  induction 1 as [ | x l l' _ ih | x y l | l l' l'' _ ih1 _ ih2];
    intros acc s h.
  - exact h.
  - cbn [sum_prices] in *.
    destruct (getitem priceByMultiple x); [ | discriminate]. apply ih, h.
  - cbn [sum_prices] in *.
    destruct (getitem priceByMultiple y) as [vy | ]; [ | discriminate].
    destruct (getitem priceByMultiple x) as [vx | ]; [ | discriminate].
    replace (acc + vx + vy)%Z with (acc + vy + vx)%Z by lia. exact h.
  - apply ih2, ih1, h.
Qed.

Lemma active_keys_perm {F : Type} {num : PyNum F}
    (m m' : list (string * json F)) :
  Permutation m m' -> Permutation (active_keys m) (active_keys m').
Proof.
  intros h. unfold active_keys.
  apply Permutation_map.
  induction h; cbn [filter].
  - constructor.
  - destruct (truthy (snd x)); [constructor | ]; assumption.
  - destruct (truthy (snd x)), (truthy (snd y));
      try constructor; apply Permutation_refl.
  - eapply Permutation_trans; eassumption.
Qed.

End ValuationKeys.

Section ValuationExact.

Import ListNotations ExactNum.

Variable fmt : R -> string.

Local Abbreviation valuationR := (@valuation R RealFloat (RealNum fmt)).
Local Abbreviation activeR m := (@active_keys R (RealNum fmt) m).

(** The result of [valuation] for a target price [t], or for none. *)
Local Abbreviation valued req target t :=
  {| targetPrice := target;
     premiumValidated :=
       Rleb (Rmax 0 ((t - 90) / 90) * 100) (growth req * (12 / 10 ^ 1));
     medianMultiples := @medians R (RealNum fmt);
     latencyMs := 5 |}.

Lemma valuation_empty (req : ValuationRequest R) :
  activeR (multiples req) = [] ->
  valuationR req = Returns (valued req None 0).
Proof.
  intros h. unfold valuation. rewrite h.
  cbn [and_then of_int dec RealNum].
  rewrite fdiv_ok by lra. cbn [lift and_then].
  rewrite (py_max_Rmax fmt).
  cbn [fle fmul fsub RealFloat of_int RealNum dec].
  replace (0 / 10 ^ 1) with 0 by lra. reflexivity.
Qed.

Lemma valuation_nonempty (req : ValuationRequest R) s :
  activeR (multiples req) <> [] ->
  Forall known (activeR (multiples req)) ->
  sum_prices 0 (activeR (multiples req)) = Returns s ->
  let t := IZR s / IZR (Z.of_nat (length (activeR (multiples req)))) in
  88 <= t <= 102 /\ valuationR req = Returns (valued req (Some t) t).
Proof.
  intros hne hk hs t.
  destruct (sum_prices_known _ hk 0%Z) as [s' [hs' hb]].
  rewrite hs in hs'. injection hs' as <-.
  set (n := Z.of_nat (length (activeR (multiples req)))) in *.
  assert (hn : (1 <= n)%Z).
  { subst n. destruct (activeR (multiples req));
      [congruence | cbn [length]; lia]. }
  assert (hn' : 1 <= IZR n) by (apply IZR_le; exact hn).
  assert (ht : 88 <= t <= 102).
  { subst t. destruct hb as [h1 h2].
    apply IZR_le in h1, h2.
    rewrite plus_IZR, mult_IZR in h1, h2. cbn [IZR] in h1, h2.
    split.
    - apply Rmult_le_reg_r with (IZR n); [lra | ].
      unfold Rdiv. rewrite Rmult_assoc, Rinv_l by lra. lra.
    - apply Rmult_le_reg_r with (IZR n); [lra | ].
      unfold Rdiv. rewrite Rmult_assoc, Rinv_l by lra. lra. }
  split; [exact ht | ].
  unfold valuation.
  destruct (activeR (multiples req)) as [ | k rest] eqn:ea; [congruence | ].
  rewrite hs. cbn [and_then of_int RealNum].
  rewrite fdiv_ok by (fold n; lra). cbn [lift and_then].
  fold n. fold t.
  cbn [ftruth RealNum].
  destruct (Req_dec_T t 0) as [e0 | _]; [lra | ].
  rewrite fdiv_ok by lra. cbn [lift and_then].
  rewrite (py_max_Rmax fmt).
  cbn [fle fmul fsub RealFloat of_int RealNum dec].
  replace (0 / 10 ^ 1) with 0 by lra. reflexivity.
Qed.

Lemma valuation_cases (req : ValuationRequest R) :
  (Forall known (activeR (multiples req)) /\
   ((activeR (multiples req) = [] /\
     valuationR req = Returns (valued req None 0)) \/
    (activeR (multiples req) <> [] /\
     exists s,
       sum_prices 0 (activeR (multiples req)) = Returns s /\
       let t := IZR s / IZR (Z.of_nat (length (activeR (multiples req)))) in
       88 <= t <= 102 /\
       valuationR req = Returns (valued req (Some t) t)))) \/
  (exists k pre post,
     activeR (multiples req) = pre ++ k :: post /\
     Forall known pre /\ ~ known k /\
     valuationR req = Raises (KeyError k)).
Proof.
  destruct (Forall_dec known known_dec (activeR (multiples req))) as [hk | hk].
  - left. split; [exact hk | ].
    destruct (activeR (multiples req)) as [ | k rest] eqn:ea.
    + left. split; [reflexivity | apply valuation_empty, ea].
    + right. split; [discriminate | ].
      destruct (sum_prices_known _ hk 0%Z) as [s [hs _]].
      exists s. split; [exact hs | ]. rewrite <- ea in *.
      apply valuation_nonempty; [congruence | exact hk | exact hs].
  - right.
    destruct (sum_prices_unknown _ hk 0%Z)
      as [k [pre [post [e [hpre [hnk hs]]]]]].
    exists k, pre, post. repeat split; try assumption.
    unfold valuation.
    destruct (activeR (multiples req)) as [ | k' rest] eqn:ea.
    + destruct pre; discriminate.
    + rewrite hs. reflexivity.
Qed.

Lemma valuation_returns_inv (req : ValuationRequest R) resp :
  valuationR req = Returns resp ->
  (activeR (multiples req) = [] /\ resp = valued req None 0) \/
  (activeR (multiples req) <> [] /\
   exists t, 88 <= t <= 102 /\ resp = valued req (Some t) t).
Proof.
  intros h.
  destruct (valuation_cases req)
    as [[_ [[ha e] | [ha [s [_ [ht e]]]]]] | [k [pre [post [_ [_ [_ e]]]]]]];
    rewrite e in h; try discriminate; injection h as <-.
  - left. auto.
  - right. split; [exact ha | ]. eexists. split; [exact ht | reflexivity].
Qed.

(** X12 -- Keys outside the price table.  In exact arithmetic
    [valuation] returns exactly when every key of [multiples] with a
    true value is one of [evEbitda], [pe], [pb]; otherwise it raises
    [KeyError] for the first such key that is not in the table, and it
    raises nothing else. *)
Theorem valuation_key_error (req : ValuationRequest R) :
  ((exists resp, valuationR req = Returns resp) <->
   Forall known (activeR (multiples req))) /\
  (forall e, valuationR req = Raises e ->
     exists k pre post,
       e = KeyError k /\ activeR (multiples req) = pre ++ k :: post /\
       Forall known pre /\ ~ known k).
Proof.
  destruct (valuation_cases req)
    as [[hk hr] | [k [pre [post [ea [hpre [hnk e]]]]]]].
  - assert (hret : exists resp, valuationR req = Returns resp).
    { destruct hr as [[_ e] | [_ [s [_ [_ e]]]]]; eexists; exact e. }
    split; [split; auto | ].
    intros e h. destruct hret as [resp e']. congruence.
  - split.
    + split.
      * intros [resp h]. congruence.
      * intros hall. rewrite ea in hall.
        apply Forall_app in hall. destruct hall as [_ hall].
        inversion hall. contradiction.
    + intros e' h. rewrite e in h. injection h as <-.
      exists k, pre, post. auto.
Qed.

(** X13 -- The target price.  When [valuation] returns, the target
    price is absent exactly when no key of [multiples] has a true
    value, and otherwise lies between 88 and 102, the least and the
    greatest price of the table. *)
Theorem valuation_target (req : ValuationRequest R) resp :
  valuationR req = Returns resp ->
  match targetPrice resp with
  | Some t => activeR (multiples req) <> [] /\ 88 <= t <= 102
  | None => activeR (multiples req) = []
  end.
Proof.
  intros h.
  destruct (valuation_returns_inv req resp h)
    as [[ha ->] | [ha [t [ht ->]]]]; cbn [targetPrice]; auto.
Qed.

(** X14 -- The premium test.  When [valuation] returns, the premium is
    validated whenever the growth is at least 100/9, it is never
    validated for a negative growth, and when the target price is
    absent or at most 90 it is validated exactly for a growth that is
    not negative. *)
Theorem valuation_premium (req : ValuationRequest R) resp :
  valuationR req = Returns resp ->
  (100 / 9 <= growth req -> premiumValidated resp = true) /\
  (growth req < 0 -> premiumValidated resp = false) /\
  ((forall t, targetPrice resp = Some t -> t <= 90) ->
   (premiumValidated resp = true <-> 0 <= growth req)).
Proof.
  intros h.
  destruct (valuation_returns_inv req resp h)
    as [[ha ->] | [ha [t [ht ->]]]]; cbn [targetPrice premiumValidated].
  - replace (Rmax 0 ((0 - 90) / 90)) with 0
      by (unfold Rmax; destruct (Rle_dec 0 ((0 - 90) / 90)); lra).
    rewrite Rleb_true, Rleb_false. repeat split; intros; lra.
  - rewrite Rleb_true, Rleb_false.
    assert (hm : 0 <= Rmax 0 ((t - 90) / 90) <= 12 / 90).
    { unfold Rmax. destruct (Rle_dec 0 ((t - 90) / 90)); lra. }
    split; [intros; lra | ]. split; [intros; lra | ].
    intros h90. specialize (h90 t eq_refl).
    replace (Rmax 0 ((t - 90) / 90)) with 0
      by (unfold Rmax; destruct (Rle_dec 0 ((t - 90) / 90)); lra).
    split; intros; lra.
Qed.

(** X15 -- The order of the keys does not matter.  If [valuation]
    returns for a request, it returns the same response for every
    request whose [multiples] hold the same entries in another
    order. *)
Theorem valuation_order (m m' : list (string * json R)) (g : R) resp :
  Permutation m m' ->
  valuationR {| multiples := m; growth := g |} = Returns resp ->
  valuationR {| multiples := m'; growth := g |} = Returns resp.
Proof.
  intros hp h.
  assert (hpa := @active_keys_perm R (RealNum fmt) m m' hp).
  destruct (valuation_cases {| multiples := m; growth := g |})
    as [[hk [[ha e] | [ha [s [hs [_ e]]]]]] | [k [pre [post [_ [_ [_ e]]]]]]];
    [ | | congruence]; cbn [multiples] in *.
  - rewrite ha in hpa. apply Permutation_nil in hpa.
    rewrite valuation_empty by exact hpa. rewrite <- h, e. reflexivity.
  - assert (hs' := sum_prices_perm _ _ hpa _ _ hs).
    destruct (valuation_nonempty {| multiples := m'; growth := g |} s)
      as [_ e']; cbn [multiples].
    + intros e0. rewrite e0 in hpa.
      apply Permutation_sym, Permutation_nil in hpa. contradiction.
    + eapply Permutation_Forall; eassumption.
    + exact hs'.
    + rewrite e', <- h, e. cbn [multiples growth].
      rewrite (Permutation_length hpa). reflexivity.
Qed.

End ValuationExact.

Lemma valuation_target_witness :
  exists resp,
    @valuation R RealFloat (ExactNum.RealNum (fun _ => EmptyString))
      {| multiples := (("pe"%string, JBool true) :: nil); growth := 10 |}
    = Returns resp /\
    match targetPrice resp with
    | Some t =>
        @active_keys R (ExactNum.RealNum (fun _ => EmptyString))
          (("pe"%string, JBool true) :: nil) <> nil /\ 88 <= t <= 102
    | None =>
        @active_keys R (ExactNum.RealNum (fun _ => EmptyString))
          (("pe"%string, JBool true) :: nil) = nil
    end.
Proof.
  destruct (valuation_nonempty (fun _ => EmptyString)
              {| multiples := (("pe"%string, JBool true) :: nil);
                 growth := 10 |} 102%Z) as [_ e].
  - discriminate.
  - constructor; [unfold known; cbn; tauto | constructor].
  - reflexivity.
  - eexists. split; [exact e | ].
    apply (valuation_target (fun _ => EmptyString) _ _ e).
Defined.

Lemma valuation_premium_witness :
  (exists resp,
     @valuation R RealFloat (ExactNum.RealNum (fun _ => EmptyString))
       {| multiples := (("pb"%string, JBool true) :: nil); growth := 12 |}
     = Returns resp /\ premiumValidated resp = true) /\
  (exists resp,
     @valuation R RealFloat (ExactNum.RealNum (fun _ => EmptyString))
       {| multiples := (("pb"%string, JBool true) :: nil); growth := -1 |}
     = Returns resp /\ premiumValidated resp = false) /\
  (exists resp,
     @valuation R RealFloat (ExactNum.RealNum (fun _ => EmptyString))
       {| multiples := (("pb"%string, JBool true) :: nil); growth := 0 |}
     = Returns resp /\ premiumValidated resp = true).
Proof.
  split; [ | split].
  - destruct (valuation_nonempty (fun _ => EmptyString)
                {| multiples := (("pb"%string, JBool true) :: nil);
                   growth := 12 |} 88%Z) as [_ e].
    + discriminate.
    + constructor; [unfold known; cbn; tauto | constructor].
    + reflexivity.
    + eexists. split; [exact e | ].
      destruct (valuation_premium (fun _ => EmptyString) _ _ e)
        as [h1 [h2 h3]].
      apply h1. cbn [growth]. lra.
  - destruct (valuation_nonempty (fun _ => EmptyString)
                {| multiples := (("pb"%string, JBool true) :: nil);
                   growth := -1 |} 88%Z) as [_ e].
    + discriminate.
    + constructor; [unfold known; cbn; tauto | constructor].
    + reflexivity.
    + eexists. split; [exact e | ].
      destruct (valuation_premium (fun _ => EmptyString) _ _ e)
        as [h1 [h2 h3]].
      apply h2. cbn [growth]. lra.
  - destruct (valuation_nonempty (fun _ => EmptyString)
                {| multiples := (("pb"%string, JBool true) :: nil);
                   growth := 0 |} 88%Z) as [ht e].
    + discriminate.
    + constructor; [unfold known; cbn; tauto | constructor].
    + reflexivity.
    + eexists. split; [exact e | ].
      destruct (valuation_premium (fun _ => EmptyString) _ _ e)
        as [h1 [h2 h3]].
      apply h3.
      * cbn [targetPrice]. intros t h. injection h as <-.
        cbn [multiples active_keys filter map snd fst truthy length
             Z.of_nat Pos.of_succ_nat]. lra.
      * cbn [growth]. lra.
Defined.

Lemma valuation_order_witness :
  exists resp,
    @valuation R RealFloat (ExactNum.RealNum (fun _ => EmptyString))
      {| multiples := (("pe"%string, JBool true)
                       :: ("pb"%string, JBool true) :: nil);
         growth := 10 |}
    = Returns resp /\
    @valuation R RealFloat (ExactNum.RealNum (fun _ => EmptyString))
      {| multiples := (("pb"%string, JBool true)
                       :: ("pe"%string, JBool true) :: nil);
         growth := 10 |}
    = Returns resp.
Proof.
  destruct (valuation_nonempty (fun _ => EmptyString)
              {| multiples := (("pe"%string, JBool true)
                               :: ("pb"%string, JBool true) :: nil);
                 growth := 10 |} 190%Z) as [_ e].
  - discriminate.
  - repeat (constructor; [unfold known; cbn; tauto | ]). constructor.
  - reflexivity.
  - eexists. split; [exact e | ].
    apply (valuation_order (fun _ => EmptyString) _ _ 10 _
             (perm_swap _ _ nil) e).
Defined.

(** ** [list_ipos] and [ipo_detail] *)

Lemma lower_ascii_idem (c : ascii) : lower_ascii (lower_ascii c) = lower_ascii c.
Proof.
  destruct c as [[ | ] [ | ] [ | ] [ | ] [ | ] [ | ] [ | ] [ | ]]; reflexivity.
Qed.

Lemma lower_idem (s : string) : lower (lower s) = lower s.
Proof.
  induction s as [ | c s ih]; [reflexivity | ].
  cbn [lower]. rewrite lower_ascii_idem, ih. reflexivity.
Qed.

Section IpoFacts.

Import ListNotations.
Local Open Scope string_scope.

Context {F : Type} {num : PyNum F}.

Lemma first_match_found (ipos : list (IPODetail F)) (sym : string) d :
  first_match ipos sym = Returns d ->
  In d ipos /\ lower (symbol d) = lower sym.
Proof.
  induction ipos as [ | i rest ih]; cbn [first_match]; [discriminate | ].
  destruct (String.eqb_spec (lower (symbol i)) (lower sym)) as [e | ne].
  - intros h. injection h as <-. split; [left; reflexivity | exact e].
  - intros h. destruct (ih h). split; [right | ]; assumption.
Qed.

Lemma first_match_missing (ipos : list (IPODetail F)) (sym : string) e :
  first_match ipos sym = Raises e ->
  e = HTTPException 404 "IPO not found" /\
  forall d, In d ipos -> lower (symbol d) <> lower sym.
Proof.
  induction ipos as [ | i rest ih]; cbn [first_match].
  - intros h. injection h as <-. split; [reflexivity | intros d []].
  - destruct (String.eqb_spec (lower (symbol i)) (lower sym)) as [e' | ne];
      [discriminate | ].
    intros h. destruct (ih h) as [-> hall]. split; [reflexivity | ].
    intros d [<- | hd]; [exact ne | apply hall, hd].
Qed.

(** X16 -- Lookup by symbol.  [ipo_detail] either returns an entry of
    [IPOS] whose symbol is the argument up to the case of the letters,
    or raises the 404 [HTTPException]; it raises only when the
    lowercased argument is none of [ideafo], [tatatech], [ems]. *)
Theorem ipo_detail_lookup (sym : string) :
  (exists d, ipo_detail sym = Returns d /\
     In d IPOS /\ lower (symbol d) = lower sym) \/
  (ipo_detail sym = Raises (HTTPException 404 "IPO not found") /\
   lower sym <> "ideafo" /\ lower sym <> "tatatech" /\ lower sym <> "ems").
Proof.
  unfold ipo_detail.
  destruct (first_match IPOS sym) as [d | e] eqn:h.
  - left. exists d. split; [reflexivity | apply first_match_found, h].
  - right. destruct (first_match_missing _ _ _ h) as [-> hall].
    split; [reflexivity | ].
    assert (h1 := hall _ (or_introl eq_refl)).
    assert (h2 := hall _ (or_intror (or_introl eq_refl))).
    assert (h3 := hall _ (or_intror (or_intror (or_introl eq_refl)))).
    repeat split; intros e; rewrite e in *; [apply h1 | apply h2 | apply h3];
      reflexivity.
Qed.

(** X17 -- The case of the symbol is ignored.  Lowercasing the argument
    of [ipo_detail] changes neither the entry returned nor the error
    raised. *)
Theorem ipo_detail_case (sym : string) :
  ipo_detail (lower sym) = ipo_detail sym.
Proof.
  unfold ipo_detail. induction IPOS as [ | i rest ih]; [reflexivity | ].
  cbn [first_match]. rewrite lower_idem, ih. reflexivity.
Qed.

(** X18 -- The list and the detail agree.  Every entry of [list_ipos]
    is found by [ipo_detail] under its own symbol, in any case of the
    letters, and the six fields of the detail returned are the fields
    of the entry. *)
Theorem ipo_round_trip (i : IPO F) (sym : string) :
  In i list_ipos -> lower sym = lower (ipo_symbol i) ->
  exists d, ipo_detail sym = Returns d /\ to_IPO d = i.
Proof.
  unfold list_ipos, ipo_detail. cbn [IPOS map In first_match symbol].
  intros [<- | [<- | [<- | []]]]; cbn [to_IPO ipo_symbol symbol];
    intros ->; (eexists; split; [reflexivity | reflexivity]).
Qed.

End IpoFacts.

Lemma ipo_round_trip_witness :
  exists d,
    @ipo_detail R (ExactNum.RealNum (fun _ => EmptyString)) "tataTech"
    = Returns d /\
    to_IPO d
    = {| ipo_symbol := "TATATECH"; ipo_name := "Tata Technologies";
         ipo_sector := "IT Services"; ipo_listDate := "2023-11-30";
         ipo_issuePrice := 500; ipo_currentPrice := 1210 |}.
Proof.
  apply (@ipo_round_trip R (ExactNum.RealNum (fun _ => EmptyString))
           {| ipo_symbol := "TATATECH"; ipo_name := "Tata Technologies";
              ipo_sector := "IT Services"; ipo_listDate := "2023-11-30";
              ipo_issuePrice := 500; ipo_currentPrice := 1210 |}
           "tataTech").
  - right. left. reflexivity.
  - reflexivity.
Defined.

(** ** [test_database] *)

Section HealthFacts.

Import ListNotations.
Local Open Scope string_scope.

(** X19 -- The two configuration fields depend on the environment
    only.  Whatever the import of the database gives, [database_url]
    and [database_name] of the response say whether the variables
    [DATABASE_URL] and [DATABASE_NAME] are set to a non-empty string,
    and [backend] is the running mark. *)
Theorem health_env_fields (env : environment) :
  backend (test_database env) = "✅ Running" /\
  database_url (test_database env)
  = Some (if getenv_truthy (DATABASE_URL env) then "✅ Set" else "❌ Not Set") /\
  database_name (test_database env)
  = Some (if getenv_truthy (DATABASE_NAME env) then "✅ Set"
          else "❌ Not Set").
Proof.
  unfold test_database.
  destruct (import_database env) as [ | msg | [db | ]];
    [ | | destruct (db_list_collection_names db) | ];
    repeat split; reflexivity.
Qed.

(** X20 -- The connection status.  [connection_status] is [Connected]
    exactly when the import gives a database object that is not
    [None], and [Not Connected] otherwise. *)
Theorem health_connection (env : environment) :
  (connection_status (test_database env) = "Connected" <->
   exists db, import_database env = Imported (Some db)) /\
  (connection_status (test_database env) = "Connected" \/
   connection_status (test_database env) = "Not Connected").
Proof.
  unfold test_database.
  destruct (import_database env) as [ | msg | [db | ]];
    [ | | destruct (db_list_collection_names db) | ];
    cbn [connection_status set_database set_database_url set_database_name
         set_connection_status set_collections];
    (split; [split | ]); auto;
    try discriminate; try (intros [db' e]; discriminate);
    intros _; eexists; reflexivity.
Qed.

(** X21 -- The collections.  [database] is the working mark exactly
    when the database object is there and lists its collections; then
    [collections] holds the first ten names, in every other case it is
    empty, and it never holds more than ten. *)
Theorem health_collections (env : environment) :
  (database (test_database env) = "✅ Connected & Working" <->
   exists db names, import_database env = Imported (Some db) /\
     db_list_collection_names db = inr names) /\
  (forall db names, import_database env = Imported (Some db) ->
     db_list_collection_names db = inr names ->
     collections (test_database env) = firstn 10 names) /\
  (database (test_database env) <> "✅ Connected & Working" ->
   collections (test_database env) = []) /\
  (length (collections (test_database env)) <= 10)%nat.
Proof.
  unfold test_database.
  destruct (import_database env) as [ | msg | [db | ]] eqn:hi;
    [ | | destruct (db_list_collection_names db) as [msg | names] eqn:hl | ];
    cbn [database collections set_database set_database_url
         set_database_name set_connection_status set_collections length].
  - split; [split; [discriminate | intros [db' [n' [e _]]]; discriminate] | ].
    split; [intros db' n' e; discriminate | ]. split; [reflexivity | lia].
  - split; [split; [discriminate | intros [db' [n' [e _]]]; discriminate] | ].
    split; [intros db' n' e; discriminate | ]. split; [reflexivity | lia].
  - split; [split; [discriminate | intros [db' [n' [e e']]]; congruence] | ].
    split; [intros db' n' e e'; congruence | ]. split; [reflexivity | lia].
  - split; [split; [intros _; eauto | reflexivity] | ].
    split; [intros db' n' e e'; congruence | ].
    split; [intros h; contradiction h; reflexivity | apply firstn_le_length].
  - split; [split; [discriminate | intros [db' [n' [e _]]]; discriminate] | ].
    split; [intros db' n' e; discriminate | ]. split; [reflexivity | lia].
Qed.

End HealthFacts.

(** ** The IPO endpoints of [main.py] *)

Section StoreFacts.

Import ListNotations Main.
Local Open Scope string_scope.

Context {F : Type} {num : PyNum F}.

Lemma get_pop_same (key : string) (d : @document F) : get (pop key d) key = None.
Proof.
  induction d as [ | [k v] d ih]; [reflexivity | ].
  cbn [pop filter fst]. fold (pop key d).
  destruct (String.eqb_spec k key) as [e | ne]; cbn [negb]; [exact ih | ].
  cbn [get]. destruct (String.eqb_spec k key); [contradiction | exact ih].
Qed.

Lemma get_pop_other (key k' : string) (d : @document F) :
  k' <> key -> get (pop key d) k' = get d k'.
Proof.
  intros hne. induction d as [ | [k v] d ih]; [reflexivity | ].
  cbn [pop filter fst]. fold (pop key d).
  destruct (String.eqb_spec k key) as [e | ne]; cbn [negb get].
  - subst k. destruct (String.eqb_spec key k'); [congruence | exact ih].
  - rewrite ih. reflexivity.
Qed.

Lemma pop_idem (key : string) (d : @document F) :
  pop key (pop key d) = pop key d.
Proof.
  induction d as [ | [k v] d ih]; [reflexivity | ].
  cbn [pop filter fst]. fold (pop key d).
  destruct (String.eqb k key) eqn:e; cbn [negb]; [exact ih | ].
  cbn [pop filter fst]. rewrite e. cbn [negb]. fold (pop key (pop key d)).
  rewrite ih. reflexivity.
Qed.

(** X22 -- [_serialize] drops the identifier and nothing else.  A
    document that is [None] or empty is returned as it is; for any
    other the result has no [_id] key and every other key has the value
    it had; serializing twice is serializing once. *)
Theorem serialize_drops_id (doc : option (@document F)) :
  (doc_truthy doc = false -> _serialize doc = doc) /\
  (forall d, doc = Some d ->
     exists d', _serialize doc = Some d' /\
       get d' "_id" = None /\
       forall k, k <> "_id" -> get d' k = get d k) /\
  _serialize (_serialize doc) = _serialize doc.
Proof.
  destruct doc as [[ | kv d] | ]; cbn [_serialize doc_truthy negb].
  - split; [reflexivity | ]. split; [ | reflexivity].
    intros d e. injection e as <-. exists []. repeat split.
  - split; [discriminate | ]. split.
    + intros d0 e. injection e as <-. eexists. split; [reflexivity | ].
      split; [apply get_pop_same | intros k hk; apply get_pop_other, hk].
    + unfold _serialize.
      destruct (doc_truthy (Some (pop "_id" (kv :: d)))); cbn [negb];
        [rewrite pop_idem | ]; reflexivity.
  - split; [reflexivity | ]. split; [discriminate | reflexivity].
Qed.

Variable St : Type.
Variable database : DatabaseModule F St.

(** The only item of the fallback list. *)
Lemma fallback_lookup_sample (sym : string) (st : St) :
  exists it, @_fallback_list F num = [it] /\
    get it "_id" = None /\
    fallback_lookup _fallback_list sym st
    = (st, if String.eqb (lower sym) "sample" then Returns it
           else Raises (HTTPException 404 "IPO not found")).
Proof.
  eexists. split; [reflexivity | ]. split; [reflexivity | ].
  cbn [_fallback_list fallback_lookup get String.eqb Ascii.eqb Bool.eqb].
  change (lower "SAMPLE") with "sample".
  rewrite (String.eqb_sym "sample").
  destruct (String.eqb (lower sym) "sample"); reflexivity.
Qed.


(** X23 -- What [get_ipo] answers.  Whatever the database does,
    [get_ipo] answers in one of three ways.  It returns the fallback
    item, and then the symbol is [sample] up to case.  Or, with a
    database, it returns a document [d0] without its [_id] and otherwise
    unchanged, where [d0] is not empty and is what [find_one] returned
    for the symbol itself in the initial state, or what it returned for
    the anchored pattern without case after the first query had
    returned [None] or an empty document.  Or it raises the 404
    [HTTPException], and then the symbol is not [sample] up to case; no
    error of the database reaches the caller.  Conversely a non-empty
    document returned by the first query, or by the second after an
    empty first answer, is the one returned. *)
Theorem get_ipo_outcome (sym : string) (st : St) :
  match snd (get_ipo database sym st) with
  | Returns doc =>
      (exists it, _fallback_list = [it] /\ doc = Some it /\
         lower sym = "sample") \/
      (db_is_none database = false /\
       exists d0,
         d0 <> [] /\ doc = Some (pop "_id" d0) /\
         get (pop "_id" d0) "_id" = None /\
         (forall k, k <> "_id" -> get (pop "_id" d0) k = get d0 k) /\
         ((exists st1,
             find_one database (BySymbol sym) st = (st1, inr (Some d0))) \/
          (exists st1 doc1 st2,
             find_one database (BySymbol sym) st = (st1, inr doc1) /\
             doc_truthy doc1 = false /\
             find_one database (ByRegex ("^" ++ sym ++ "$") "i") st1
             = (st2, inr (Some d0)))))
  | Raises e =>
      e = HTTPException 404 "IPO not found" /\ lower sym <> "sample"
  end /\
  (forall st1 d0,
     db_is_none database = false ->
     find_one database (BySymbol sym) st = (st1, inr (Some d0)) ->
     d0 <> [] ->
     get_ipo database sym st = (st1, Returns (Some (pop "_id" d0)))) /\
  (forall st1 doc1 st2 d0,
     db_is_none database = false ->
     find_one database (BySymbol sym) st = (st1, inr doc1) ->
     doc_truthy doc1 = false ->
     find_one database (ByRegex ("^" ++ sym ++ "$") "i") st1
     = (st2, inr (Some d0)) ->
     d0 <> [] ->
     get_ipo database sym st = (st2, Returns (Some (pop "_id" d0)))).
Proof.
  assert (fb : forall st' : St,
    match snd (seq (fallback_lookup _fallback_list sym)
                   (fun it => ret (Some it)) st') with
    | Returns doc =>
        exists it, @_fallback_list F num = [it] /\ doc = Some it /\
          lower sym = "sample"
    | Raises e =>
        e = HTTPException 404 "IPO not found" /\ lower sym <> "sample"
    end).
  { intros st'. unfold seq.
    destruct (fallback_lookup_sample sym st') as [it [e1 [_ e2]]].
    rewrite e2.
    destruct (String.eqb_spec (lower sym) "sample") as [e | ne];
      cbn [snd ret].
    - exists it. auto.
    - auto. }
  assert (found : forall d0 : @document F, d0 <> [] ->
    doc_truthy (Some d0) = true /\
    _serialize (Some d0) = Some (pop "_id" d0)).
  { intros [ | kv d0] h; [contradiction | split; reflexivity]. }
  split; [ | split].
  - unfold get_ipo.
    destruct (db_is_none database) eqn:hdb.
    + specialize (fb st).
      destruct (snd (seq _ _ st)) as [doc | e]; [left | ]; exact fb.
    + unfold try_except, seq at 1, call at 1.
      destruct (find_one database (BySymbol sym) st)
        as [st1 [msg | doc1]] eqn:h1.
      * specialize (fb st1).
        destruct (snd (seq _ _ st1)) as [doc | e]; [left | ]; exact fb.
      * destruct (doc_truthy doc1) eqn:t1; cbn [negb].
        -- unfold seq at 1, ret at 1. rewrite t1. cbn [negb]. unfold ret.
           cbn [snd]. right. split; [reflexivity | ].
           destruct doc1 as [[ | kv d0] | ]; try discriminate.
           exists (kv :: d0). split; [discriminate | ].
           split; [reflexivity | ].
           split; [apply get_pop_same | ].
           split; [intros k hk; apply get_pop_other, hk | ].
           left. exists st1. reflexivity.
        -- unfold seq at 1, call at 1.
           destruct (find_one database (ByRegex _ _) st1)
             as [st2 [msg | doc2]] eqn:h2.
           ++ specialize (fb st2).
              destruct (snd (seq _ _ st2)) as [doc | e]; [left | ]; exact fb.
           ++ destruct (doc_truthy doc2) eqn:t2; cbn [negb].
              ** unfold ret. cbn [snd]. right. split; [reflexivity | ].
                 destruct doc2 as [[ | kv d0] | ]; try discriminate.
                 exists (kv :: d0). split; [discriminate | ].
                 split; [reflexivity | ].
                 split; [apply get_pop_same | ].
                 split; [intros k hk; apply get_pop_other, hk | ].
                 right. exists st1, doc1, st2. auto.
              ** destruct (seq (fallback_lookup _fallback_list sym)
                             (fun it => ret (Some it)) st2)
                   as [st3 [doc | e]] eqn:h3.
                 --- specialize (fb st2). rewrite h3 in fb. left. exact fb.
                 --- specialize (fb st3).
                     destruct (snd (seq _ _ st3)) as [doc | e'];
                       [left | ]; exact fb.
  - intros st1 d0 hdb h1 hne. destruct (found d0 hne) as [t e].
    unfold get_ipo. rewrite hdb.
    unfold try_except, seq at 1, call at 1. rewrite h1, t. cbn [negb].
    unfold seq at 1, ret at 1. rewrite t. cbn [negb]. unfold ret.
    rewrite e. reflexivity.
  - intros st1 doc1 st2 d0 hdb h1 t1 h2 hne. destruct (found d0 hne) as [t e].
    unfold get_ipo. rewrite hdb.
    unfold try_except, seq at 1, call at 1. rewrite h1, t1. cbn [negb].
    unfold seq at 1, call at 1. rewrite h2, t. cbn [negb]. unfold ret.
    rewrite e. reflexivity.
Qed.

Lemma seed_loop_returns (l : list (@document F)) (st : St) :
  exists st', seed_loop database l st = (st', Returns tt).
Proof.
  revert st. induction l as [ | s rest ih]; intros st.
  - exists st. reflexivity.
  - cbn [seed_loop]. unfold seq, try_except, call_write, ret.
    destruct (create_document database s st) as [st1 [msg | ]].
    + exists st1. reflexivity.
    + apply ih.
Qed.

Lemma ensure_seed_data_returns (today : string) (st : St) :
  exists st', _ensure_seed_data database today st = (st', Returns tt).
Proof.
  unfold _ensure_seed_data, try_except.
  destruct (db_is_none database); [exists st; reflexivity | ].
  unfold seq, call.
  destruct (count_documents database st) as [st1 [msg | count]];
    [exists st1; reflexivity | ].
  destruct (count >? 0)%Z; [exists st1; reflexivity | ].
  destruct (seed_loop_returns (seed today) st1) as [st2 e2].
  rewrite e2. exists st2. reflexivity.
Qed.

(** X24 -- Seeding is silent and leaves a filled collection alone.
    [_ensure_seed_data] never raises; without a database it does not
    touch the state, and when the count of documents is positive, or
    counting raises, the state is the one the count left: nothing is
    written. *)
Theorem ensure_seed_data_safe (today : string) (st : St) :
  (exists st', _ensure_seed_data database today st = (st', Returns tt)) /\
  (db_is_none database = true ->
   _ensure_seed_data database today st = (st, Returns tt)) /\
  (forall st1 count, db_is_none database = false ->
     count_documents database st = (st1, inr count) -> (0 < count)%Z ->
     _ensure_seed_data database today st = (st1, Returns tt)) /\
  (forall st1 msg, db_is_none database = false ->
     count_documents database st = (st1, inl msg) ->
     _ensure_seed_data database today st = (st1, Returns tt)).
Proof.
  unfold _ensure_seed_data, try_except.
  destruct (db_is_none database).
  - unfold ret. repeat split; eauto; discriminate.
  - unfold seq, call.
    destruct (count_documents database st) as [st1 [msg | count]].
    + unfold ret. split; [eauto | ]. split; [discriminate | ].
      split; [intros ? ? _ e; discriminate | ].
      intros ? ? _ e. injection e as <- _. reflexivity.
    + destruct (Z.gtb_spec count 0) as [hc | hc].
      * unfold ret. split; [eauto | ]. split; [discriminate | ].
        split; [ | intros ? ? _ e; discriminate].
        intros ? ? _ e _. injection e as <- _. reflexivity.
      * destruct (seed_loop_returns (seed today) st1) as [st2 e2].
        rewrite e2. split; [eauto | ]. split; [discriminate | ].
        split; [ | intros ? ? _ e; discriminate].
        intros ? ? _ e hpos. injection e as _ <-. lia.
Qed.

(** X25 -- [list_ipos] always answers with a non-empty list.
    Whatever the database does, [list_ipos] returns, the list is not
    empty, and no document of it has an [_id] key. *)
Theorem list_ipos_nonempty (today : string) (st : St) :
  exists st' l,
    list_ipos database today st = (st', Returns l) /\
    l <> [] /\
    Forall (fun doc => exists d, doc = Some d /\ get d "_id" = None) l.
Proof.
  assert (fb : forall st' : St,
    exists l, ret (map Some (@_fallback_list F num)) st' = (st', Returns l) /\
      l <> [] /\
      Forall (fun doc => exists d, doc = Some d /\ get d "_id" = None) l).
  { intros st'. eexists. split; [reflexivity | ].
    split; [discriminate | ].
    repeat constructor. eexists. split; reflexivity. }
  unfold list_ipos.
  destruct (db_is_none database); [exists st; apply fb | ].
  destruct (ensure_seed_data_returns today st) as [st1 e1].
  unfold try_except, seq at 1. rewrite e1.
  unfold seq, call.
  destruct (get_documents database st1) as [st2 [msg | docs]];
    [exists st2; apply fb | ].
  destruct docs as [ | d docs]; [exists st2; apply fb | ].
  exists st2. eexists. unfold ret. split; [reflexivity | ].
  split; [discriminate | ].
  apply Forall_forall. intros doc hin.
  apply in_map_iff in hin. destruct hin as [d0 [<- _]].
  destruct d0 as [ | kv d0].
  - exists []. split; reflexivity.
  - eexists. split; [reflexivity | apply get_pop_same].
Qed.

End StoreFacts.

(** ** The pricer on doubles *)

Module Binary64Facts.

Import PrimFloat Binary64.

Local Open Scope float_scope.

(** The guard returns the zero response on doubles too. *)
Lemma degenerate_binary64 (m : Library) (S K T r sigma : float) (is_call : bool) :
  (T <=? 0) || (sigma <=? 0) || (S <=? 0) || (K <=? 0) = true ->
  price_binary64 m S K T r sigma is_call = Ok (@all_zero float (float_ops m)).
Proof.
  intros h. unfold price_binary64.
  apply (@degenerate_guard float (float_ops m)). exact h.
Qed.

(** [S / K] underflows to [0.0] and [math.log] raises. *)
Lemma log_of_underflow_raises (m : Library) (is_call : bool) :
  price_binary64 m 1e-200 1e200 1 0.05 0.2 is_call = Raise ValueError.
Proof. destruct is_call; vm_compute; reflexivity. Qed.

(** [sigma * sqrt(T)] underflows to [0.0] and the division raises,
    unless the library raised before. *)
Lemma division_by_underflow_raises (m : Library) (is_call : bool) :
  exists e, price_binary64 m 100 100 1e-300 0.05 1e-200 is_call = Raise e.
Proof.
  unfold price_binary64. lazy -[c_log c_pow2].
  destruct (c_log m 1) as [l | e1]; [ | exists e1; reflexivity].
  destruct (c_pow2 m 1e-200) as [s2 | e2]; [ | exists e2; reflexivity].
  exists ZeroDivisionError. reflexivity.
Qed.

(** C3, as stated, fails on doubles: whatever the library functions
    are, the pricer raises at [S = 1e-200], [K = 1e200], [T = 1],
    [r = 0.05], [sigma = 0.2], where all four guarded inputs are
    positive and [S / K] underflows to [0.0]. *)
Lemma black_scholes_binary64_not_total :
  ~ (exists m : Library,
       forall (S K T r sigma : float) (is_call : bool),
       exists res, price_binary64 m S K T r sigma is_call = Ok res).
Proof.
  intros [m h].
  destruct (h 1e-200 1e200 1 0.05 0.2 true) as [res e].
  rewrite log_of_underflow_raises in e. discriminate e.
Qed.


(** The observations are consistent: the library of the table returns
    them. *)
Lemma at_scenario_table : Observed.at_scenario Observed.table_library.
Proof. repeat split; vm_compute; reflexivity. Qed.


End Binary64Facts.

(** ** [predict] on doubles *)

Module Binary64NumFacts.

Import PrimFloat Binary64 Binary64Num.
Local Open Scope float_scope.

Lemma ltb_leb (x y : float) : (x <? y) = true -> (x <=? y) = true.
Proof.
  rewrite FloatAxioms.ltb_spec, FloatAxioms.leb_spec.
  unfold SpecFloat.SFltb, SpecFloat.SFleb.
  destruct (SpecFloat.SFcompare _ _) as [[ | | ] | ]; congruence.
Qed.

(** Python's [max(0.0, min(1.0, p))] lies in [0, 1] for every double,
    NaN included. *)
Lemma clamp_bounds (fmt : float -> string) (p : float) :
  (0 <=? @py_max float (float_num fmt) 0 (@py_min float (float_num fmt) 1 p))
  = true /\
  (@py_max float (float_num fmt) 0 (@py_min float (float_num fmt) 1 p) <=? 1)
  = true.
Proof.
  unfold py_max, py_min. cbn [flt float_num].
  destruct (p <? 1) eqn:h1.
  - destruct (0 <? p) eqn:h2.
    + split; apply ltb_leb; assumption.
    + split; reflexivity.
  - split; reflexivity.
Qed.

(** X8 -- On doubles [predict] never raises and the probability is in
    [0, 1].  For every three doubles of a request, infinities and NaN
    included, whatever the formatting gives, [predict] returns and the
    probability [p] satisfies [0.0 <= p] and [p <= 1.0]; in particular
    it is never NaN. *)
Theorem predict_binary64_bounded (m : Library) (fmt : float -> string)
    (req : PredictRequest float) :
  exists resp,
    predict_binary64 m fmt req = Ok resp /\
    (0 <=? probability resp) = true /\
    (probability resp <=? 1) = true.
Proof.
  unfold predict_binary64, predict.
  cbn [fdiv float_ops of_int float_num].
  unfold float_div.
  replace (float_of_Z 20 =? 0) with false by (vm_compute; reflexivity).
  replace (float_of_Z 2 =? 0) with false by (vm_compute; reflexivity).
  cbn [bind]. eexists. split; [reflexivity | ].
  cbn [probability dec float_num].
  replace (float_dec 0 1) with 0 by (vm_compute; reflexivity).
  replace (float_dec 10 1) with 1 by (vm_compute; reflexivity).
  apply clamp_bounds.
Qed.

End Binary64NumFacts.
